(** * csvsorter: external merge sort of CSV files

    A shallow embedding of [csvsorter/__init__.py] (version 1.4) and the
    properties of its pipeline: column resolution, splitting into chunk
    files, in-memory chunk sort, file merging and workspace cleanup.

    Modelling conventions.
    - A Python [str] is a [string]; strings are ordered by code point, which
      for UTF-8 encoded text is the byte-wise order of [String.compare].
    - A CSV row is the list of its fields, and a CSV file is the list of its
      rows: [csv.writer] followed by [csv.reader] is taken to be the identity
      on rows, so delimiter, quoting and encoding do not appear.  A blank
      line is the empty row.  The codec is taken not to fail: where
      [csv.reader] or [csv.writer] raises [csv.Error] (a field above the
      field size limit, a row that [quoting=QUOTE_NONE] cannot write) the
      program ends with an exception that the model does not have.  What
      is proved of a run that returns, and of the errors raised before the
      output is opened, is not affected.
    - Python integers are unbounded, hence [Z].
    - The file system is an explicit state threaded through every function
      that opens, writes or removes a file.  A file is missing or holds
      rows; no other failure of the operating system is modelled.
    - The command line ([main]) and the progress message are left out. *)

From Stdlib Require Import ZArith Lia.
From stdpp Require Import base option list gmap strings fin_maps sorting.

Local Open Scope Z_scope.

(** ** Values *)

(** A row as produced by [csv.reader]: a list of text fields. *)
Abbreviation row := (list string).

(** A column specifier: [isinstance(column, int)] or a header name. *)
Inductive column :=
  | CInt (z : Z)
  | CName (s : string).

#[global] Instance column_eq_dec : EqDecision column.
Proof. solve_decision. Defined.

(** The three messages with which [parse_columns] raises [CsvSortError]. *)
Inductive csv_sort_error :=
  | ColumnOutOfRange   (* 'Column index is out of range' *)
  | ColumnNotFound     (* 'Column name is not found in header' *)
  | MissingHeader.     (* 'CSV needs a header to find index of this column name' *)

#[global] Instance csv_sort_error_eq_dec : EqDecision csv_sort_error.
Proof. solve_decision. Defined.

(** Paths.  [tmp_dir] is '.csvsorter.<pid>'; the files the program creates in
    it are 'split<n>.csv' and 'merge<n>.csv'.  Files named by the caller lie
    outside the workspace. *)
Inductive path :=
  | Split (n : nat)
  | Merge (n : nat)
  | Outside (name : string).

#[global] Instance path_eq_dec : EqDecision path.
Proof. solve_decision. Defined.

Definition path_encode (p : path) : nat + nat + string :=
  match p with
  | Split n => inl (inl n)
  | Merge n => inl (inr n)
  | Outside s => inr s
  end.

Definition path_decode (x : nat + nat + string) : path :=
  match x with
  | inl (inl n) => Split n
  | inl (inr n) => Merge n
  | inr s => Outside s
  end.

#[global] Instance path_countable : Countable path.
Proof.
  apply (inj_countable' path_encode path_decode). by intros [].
Defined.

Definition in_workspace (p : path) : bool :=
  match p with
  | Outside _ => false
  | _ => true
  end.

(** Exceptions that can leave the functions below. *)
Inductive exn :=
  | CsvSortError (msg : csv_sort_error) (c : column)
  | IndexError
  | TypeError
  | ValueError
  | StopIteration
  | FileNotFoundError (p : path).

#[global] Instance exn_eq_dec : EqDecision exn.
Proof. solve_decision. Defined.

(** The outcome of running a piece of code: a value, a raised exception, or
    no outcome at all for a loop that does not end. *)
Inductive outcome (A : Type) :=
  | Ok (a : A)
  | Raise (e : exn)
  | Diverge.
Arguments Ok {A} a.
Arguments Raise {A} e.
Arguments Diverge {A}.

#[global] Instance outcome_eq_dec {A} `{EqDecision A} : EqDecision (outcome A).
Proof. solve_decision. Defined.

Definition is_ok {A} (o : outcome A) : bool :=
  match o with Ok _ => true | _ => false end.

(** ** Python list primitives *)

(** Truth value of [header], which is [None] or a list. *)
Definition truthy (header : option row) : bool :=
  match header with
  | Some (_ :: _) => true
  | _ => false
  end.

(** [x in l] *)
Definition py_in (x : string) (l : row) : bool := existsb (String.eqb x) l.

(** [l.index(x)]: position of the first occurrence. *)
Fixpoint py_index (x : string) (l : row) : option nat :=
  match l with
  | [] => None
  | y :: l' => if String.eqb y x then Some 0%nat else S <$> py_index x l'
  end.

(** [l[i]] for an integer [i]: negative indices count from the end. *)
Definition py_getitem {A} (l : list A) (i : Z) : outcome A :=
  let n := Z.of_nat (length l) in
  if (0 <=? i) && (i <? n) then
    match l !! Z.to_nat i with Some x => Ok x | None => Raise IndexError end
  else if (- n <=? i) && (i <? 0) then
    match l !! Z.to_nat (n + i) with Some x => Ok x | None => Raise IndexError end
  else Raise IndexError.

(** [row[column]]: a list cannot be indexed by a [str]. *)
Definition row_getitem (r : row) (c : column) : outcome string :=
  match c with
  | CInt z => py_getitem r z
  | CName _ => Raise TypeError
  end.

(** ** Ordering of rows and keys *)

(** Comparison of two lists of [str], as Python compares lists: at the first
    position where they differ, else by length. *)
Fixpoint row_compare (a b : row) : comparison :=
  match a, b with
  | [], [] => Eq
  | [], _ :: _ => Lt
  | _ :: _, [] => Gt
  | x :: a', y :: b' =>
      match String.compare x y with
      | Eq => row_compare a' b'
      | c => c
      end
  end.

(** [a < b] *)
Definition row_lt (a b : row) : bool :=
  match row_compare a b with Lt => true | _ => false end.

(** [a <= b] *)
Definition row_le (a b : row) : bool :=
  match row_compare a b with Gt => false | _ => true end.

(** ** parse_columns *)

(** The body of [for i, column in enumerate(columns)].  The list iterator
    reads [columns[i]] from the list as it is at that moment; [n] bounds the
    number of remaining elements.  The first component of the result is the
    content of the argument list when the loop ends or raises. *)
Fixpoint parse_columns_loop (header : option row) (n : nat) (i : nat)
    (columns : list column) : list column * option exn :=
  match n with
  | O => (columns, None)
  | S n' =>
      match columns !! i with
      | None => (columns, None)
      | Some (CInt z) =>
          if truthy header && (Z.of_nat (length (default [] header)) <=? z)
          then (columns, Some (CsvSortError ColumnOutOfRange (CInt z)))
          else parse_columns_loop header n' (S i) columns
      | Some (CName s) =>
          if truthy header then
            if py_in s (default [] header) then
              match py_index s (default [] header) with
              | Some k =>
                  parse_columns_loop header n' (S i)
                    (<[i := CInt (Z.of_nat k)]> columns)
              | None => (columns, Some ValueError)
              end
            else (columns, Some (CsvSortError ColumnNotFound (CName s)))
          else (columns, Some (CsvSortError MissingHeader (CName s)))
      end
  end.

(** [parse_columns columns header] returns the content of the list object
    [columns] after the call, and the outcome of the call.  The value
    returned by the Python function is that same list object. *)
Definition parse_columns (columns : list column) (header : option row)
    : list column * outcome (list column) :=
  match parse_columns_loop header (length columns) 0 columns with
  | (columns', None) => (columns', Ok columns')
  | (columns', Some e) => (columns', Raise e)
  end.

(** ** The sort of memorysort *)

(** [[row[column] for column in columns]] *)
Fixpoint sort_key (columns : list column) (r : row) : outcome row :=
  match columns with
  | [] => Ok []
  | c :: cs =>
      match row_getitem r c with
      | Ok x =>
          match sort_key cs r with
          | Ok k => Ok (x :: k)
          | Raise e => Raise e
          | Diverge => Diverge
          end
      | Raise e => Raise e
      | Diverge => Diverge
      end
  end.

(** [list.sort(key=...)] first computes the key of every element, in order;
    an exception raised by the key function leaves the sort. *)
Fixpoint decorate (columns : list column) (rows : list row)
    : outcome (list (row * row)) :=
  match rows with
  | [] => Ok []
  | r :: rs =>
      match sort_key columns r with
      | Ok k =>
          match decorate columns rs with
          | Ok d => Ok ((k, r) :: d)
          | Raise e => Raise e
          | Diverge => Diverge
          end
      | Raise e => Raise e
      | Diverge => Diverge
      end
  end.

(** [list.sort] is a stable sort that compares keys with [<] only.  The
    result of a stable sort is determined by the input, so it is modelled by
    insertion from the right: an element is moved past exactly those
    elements to its right whose key is strictly smaller. *)
Fixpoint insert_by_key (x : row * row) (l : list (row * row)) : list (row * row) :=
  match l with
  | [] => [x]
  | y :: l' => if row_lt (fst y) (fst x) then y :: insert_by_key x l' else x :: l
  end.

Definition stable_sort (l : list (row * row)) : list (row * row) :=
  foldr insert_by_key [] l.

(** [rows.sort(key=lambda row: [row[column] for column in columns])] *)
Definition list_sort (columns : list column) (rows : list row) : outcome (list row) :=
  match decorate columns rows with
  | Ok d => Ok (snd <$> stable_sort d)
  | Raise e => Raise e
  | Diverge => Diverge
  end.

(** ** heapq.merge *)

(** [heapq.merge] keeps one entry [[value, order, next]] per stream
    that is not exhausted and always yields the least entry, so the least
    head, and among equal heads the one of the stream given first.
    [min_head i streams] is the position (counted from [i]) and value of
    that head. *)
Fixpoint min_head (i : nat) (streams : list (list row)) : option (nat * row) :=
  match streams with
  | [] => None
  | [] :: ss => min_head (S i) ss
  | (r :: _) :: ss =>
      match min_head (S i) ss with
      | Some (j, r') => if row_lt r' r then Some (j, r') else Some (i, r)
      | None => Some (i, r)
      end
  end.

Fixpoint heapq_merge_fuel (fuel : nat) (streams : list (list row)) : list row :=
  match fuel with
  | O => []
  | S fuel' =>
      match min_head 0 streams with
      | None => []
      | Some (i, r) => r :: heapq_merge_fuel fuel' (alter (drop 1) i streams)
      end
  end.

(** Each step consumes one row, so the number of rows is fuel enough. *)
Definition heapq_merge (streams : list (list row)) : list row :=
  heapq_merge_fuel (length (concat streams)) streams.

(** ** The file system *)

(** What the program does to the file system, in order. *)
Inductive event :=
  | EvMkdir                (* os.makedirs(tmp_dir, exist_ok=True) *)
  | EvCreate (p : path)    (* open(p, 'w'): create or truncate *)
  | EvRemove (p : path)    (* os.remove(p) *)
  | EvRmtree.              (* shutil.rmtree(tmp_dir, ignore_errors=True) *)

(** [files] maps each existing CSV file to its rows, [tmp_dir_exists] tells
    whether the workspace directory exists, [trace] records the effects. *)
Record state := State {
  files : gmap path (list row);
  tmp_dir_exists : bool;
  trace : list event
}.

(** A computation on the file system. *)
Definition M (A : Type) : Type := state → state * outcome A.

Definition ret {A} (a : A) : M A := λ st, (st, Ok a).
Definition raise {A} (e : exn) : M A := λ st, (st, Raise e).
Definition bind {A B} (m : M A) (k : A → M B) : M B :=
  λ st, match m st with
        | (st', Ok a) => k a st'
        | (st', Raise e) => (st', Raise e)
        | (st', Diverge) => (st', Diverge)
        end.
Definition lift {A} (o : outcome A) : M A := λ st, (st, o).

Notation "x <- m ;; k" := (bind m (λ x, k))
  (at level 100, m at next level, right associativity).
Notation "m ;;; k" := (bind m (λ _, k))
  (at level 100, right associativity).

(** [open(p, 'w')] *)
Definition open_w (p : path) : M unit :=
  λ st, (State (<[p := []]> (files st)) (tmp_dir_exists st) (trace st ++ [EvCreate p]), Ok ()).

(** [writer.writerow(r)] on a writer over the file [p] *)
Definition writerow (p : path) (r : row) : M unit :=
  λ st, (State (<[p := default [] (files st !! p) ++ [r]]> (files st))
               (tmp_dir_exists st) (trace st), Ok ()).

(** [writer.writerows(rs)] *)
Fixpoint writerows (p : path) (rs : list row) : M unit :=
  match rs with
  | [] => ret ()
  | r :: rs' => writerow p r ;;; writerows p rs'
  end.

(** [open(p)] followed by reading every row through [csv.reader] *)
Definition read_rows (p : path) : M (list row) :=
  λ st, match files st !! p with
        | Some rs => (st, Ok rs)
        | None => (st, Raise (FileNotFoundError p))
        end.

(** [os.remove(p)] *)
Definition os_remove (p : path) : M unit :=
  λ st, match files st !! p with
        | Some _ => (State (delete p (files st)) (tmp_dir_exists st)
                       (trace st ++ [EvRemove p]), Ok ())
        | None => (st, Raise (FileNotFoundError p))
        end.

(** [os.makedirs(tmp_dir, exist_ok=True)] *)
Definition makedirs (st : state) : state :=
  State (files st) true (trace st ++ [EvMkdir]).

(** [shutil.rmtree(tmp_dir, ignore_errors=True)] *)
Definition rmtree (st : state) : state :=
  State (filter (λ kv, in_workspace kv.1 = false) (files st)) false
        (trace st ++ [EvRmtree]).

(** [for x in l: f(x)] *)
Fixpoint for_each {A} (f : A → M unit) (l : list A) : M unit :=
  match l with
  | [] => ret ()
  | x :: l' => f x ;;; for_each f l'
  end.

(** [[f(x) for x in l]] *)
Fixpoint map_m {A B} (f : A → M B) (l : list A) : M (list B) :=
  match l with
  | [] => ret []
  | x :: l' => y <- f x ;; ys <- map_m f l' ;; ret (y :: ys)
  end.

(** ** The pipeline *)

Section Pipeline.

(** [sys.getsizeof] of a row object; its value depends on the interpreter. *)
Variable getsizeof : row → Z.

(** The loop of [csvsplit]: [writer] is the file behind the current writer,
    if any.  The file objects are never closed by the code; CPython closes
    each one when its writer is dropped, so every row written is in the
    file before [memorysort] opens it. *)
Fixpoint csvsplit_loop (max_size : Z) (reader : list row) (writer : option path)
    (current_size : Z) (split_filenames : list path) : M (list path) :=
  match reader with
  | [] => ret split_filenames
  | r :: reader' =>
      let filename :=
        match writer with
        | None => Split (length split_filenames)
        | Some f => f
        end in
      let split_filenames' :=
        match writer with
        | None => split_filenames ++ [filename]
        | Some _ => split_filenames
        end in
      match writer with None => open_w filename | Some _ => ret () end ;;;
      writerow filename r ;;;
      let current_size' := current_size + getsizeof r in
      if max_size <? current_size'
      then csvsplit_loop max_size reader' None 0 split_filenames'
      else csvsplit_loop max_size reader' (Some filename) current_size' split_filenames'
  end.

Definition csvsplit (reader : list row) (max_size : Z) : M (list path) :=
  let max_size := max_size * 1024 * 1024 in
  csvsplit_loop max_size reader None 0 [].

End Pipeline.

Definition memorysort (filename : path) (columns : list column) : M unit :=
  rows <- read_rows filename ;;
  rows <- lift (list_sort columns rows) ;;
  open_w filename ;;;
  writerows filename rows.

(** The generator yields the rows of the file; it does not use [columns]. *)
Definition yield_csv_rows (filename : path) (columns : list column)
    : M (list row) :=
  read_rows filename.

(** The [while] loop of [mergesort].  The generators open their files when
    [heapq.merge] first advances them, after the output file was opened;
    reading each file whole at that moment gives the same rows as long as
    the output file is not one of the files merged, and 'merge<n>.csv' is
    new in every pass.  [columns] only travels to [yield_csv_rows]; the
    merge compares rows. *)
Fixpoint mergesort_loop (fuel : nat) (columns : list column) (nway : nat)
    (merge_n : nat) (sorted_filenames : list path) : M path :=
  if (1 <? length sorted_filenames)%nat then
    match fuel with
    | O => lift Diverge
    | S fuel' =>
        let merge_filenames := take nway sorted_filenames in
        let sorted_filenames := drop nway sorted_filenames in
        let output_filename := Merge merge_n in
        open_w output_filename ;;;
        let merge_n := S merge_n in
        rows <- map_m (λ filename, yield_csv_rows filename columns)
                  merge_filenames ;;
        writerows output_filename (heapq_merge rows) ;;;
        let sorted_filenames := sorted_filenames ++ [output_filename] in
        for_each os_remove merge_filenames ;;;
        mergesort_loop fuel' columns nway merge_n sorted_filenames
    end
  else
    match sorted_filenames with
    | f :: _ => ret f
    | [] => raise IndexError
    end.

(** With [nway >= 2] every pass shortens the list, so its length is fuel
    enough (lemma [halts_mergesort_loop]). *)
Definition mergesort (sorted_filenames : list path) (columns : list column)
    (nway : nat) : M path :=
  mergesort_loop (length sorted_filenames) columns nway 0 sorted_filenames.

(** The arguments of [csvsort] that bear on rows and files; [delimiter],
    [quoting] and [encoding] belong to the codec.  [max_size] is taken to
    be an integer number of megabytes. *)
Record args := Args {
  input_filename : string;
  columns : list column;
  output_filename : string;
  max_size : Z;
  has_header : bool
}.

(** The destination of the sorted rows: [output_filename or input_filename]. *)
Definition destination (a : args) : path :=
  Outside (if String.eqb (output_filename a) EmptyString
           then input_filename a else output_filename a).

(** [try: body finally: finalizer].  The finalizer runs on every way out of
    the body; for a body that does not end the state is immaterial. *)
Definition try_finally {A} (body : M A) (finalizer : state → state) : M A :=
  λ st, let (st', r) := body st in (finalizer st', r).

Section Csvsort.

Variable getsizeof : row → Z.

(** The body of the [try] statement. *)
Definition csvsort_try (a : args) : M unit :=
  reader <- read_rows (Outside (input_filename a)) ;;
  hr <- (if has_header a then
           match reader with
           | h :: reader' => ret (Some h, reader')
           | [] => raise StopIteration
           end
         else ret (None, reader)) ;;
  let header : option row := hr.1 in
  let reader := hr.2 in
  columns <- lift (parse_columns (columns a) header).2 ;;
  filenames <- csvsplit getsizeof reader (max_size a) ;;
  for_each (λ filename, memorysort filename columns) filenames ;;;
  sorted_filename <- mergesort filenames columns 2 ;;
  let out := destination a in
  open_w out ;;;
  (if truthy header then writerow out (default [] header) else ret ()) ;;;
  rows <- read_rows sorted_filename ;;
  writerows out rows.

Definition csvsort (a : args) : M unit :=
  λ st, try_finally (csvsort_try a) rmtree (makedirs st).

End Csvsort.

(** The size of a list object of exactly [len(r)] items in 64-bit CPython,
    used where an example needs numbers: a 56 byte header and one pointer
    for each element.  A list that grew by [append], as the rows of
    [csv.reader] do, is over-allocated and somewhat larger; the examples
    take limits of 0 and 100 megabytes, under which both sizes cut the same
    chunks. *)
Definition cpython_getsizeof (r : row) : Z := 56 + 8 * Z.of_nat (length r).

Local Close Scope Z_scope.

(** * Vocabulary of the properties *)

Module Resolver.

(** The header that [parse_columns] works with: an empty header row is
    false in a condition, like [None]. *)
Definition effective (header : option row) : option row :=
  if truthy header then header else None.

(** What makes a specifier fail against a header, in the words of the
    resolver's contract: an index at or beyond the header length, a name
    that is not in the header, a name without a header. *)
Definition offence (header : option row) (c : column) : option exn :=
  match c, header with
  | CInt z, Some h =>
      if (Z.of_nat (length h) <=? z)%Z
      then Some (CsvSortError ColumnOutOfRange c) else None
  | CInt _, None => None
  | CName s, Some h =>
      if py_in s h then None else Some (CsvSortError ColumnNotFound c)
  | CName _, None => Some (CsvSortError MissingHeader c)
  end.

(** The index a specifier stands for. *)
Definition resolve (header : option row) (c : column) : column :=
  match c with
  | CInt _ => c
  | CName s =>
      match py_index s (default [] header) with
      | Some k => CInt (Z.of_nat k)
      | None => c
      end
  end.

(** Position and error of the first offending specifier. *)
Fixpoint first_offence (header : option row) (cols : list column)
    : option (nat * exn) :=
  match cols with
  | [] => None
  | c :: cs =>
      match offence header c with
      | Some e => Some (O, e)
      | None => prod_map S id <$> first_offence header cs
      end
  end.
End Resolver.

(** [a] may stand before [b] in a list of keyed rows sorted by key. *)
Definition key_le (a b : row * row) : Prop := row_lt b.1 a.1 = false.

(** The field of a row that a negative index [z] selects: [-1] the last
    field, [-2] the one before it, and so on, counted from the end. *)
Definition field_from_end (r : row) (z : Z) : option string :=
  reverse r !! Z.to_nat (- z - 1).

(** [a] may stand before [b] in a file sorted on [cols]. *)
Definition rows_in_order (cols : list column) (a b : row) : Prop :=
  ∃ ka kb, sort_key cols a = Ok ka ∧ sort_key cols b = Ok kb ∧
           row_le ka kb = true.

(** The files [names] hold the row lists [cs], in this order. *)
Definition stored (m : gmap path (list row)) (names : list path)
    (cs : list (list row)) : Prop :=
  Forall2 (λ f c, m !! f = Some c) names cs.

(** A computation that returns normally, with a postcondition on its value
    and the state it leaves. *)
Definition returns {A} (m : M A) (st : state) (Q : A → state → Prop) : Prop :=
  ∃ st' a, m st = (st', Ok a) ∧ Q a st'.

(** A computation that ends, normally or with an exception, from every
    state. *)
Definition halts {A} (m : M A) : Prop := ∀ st, (m st).2 ≠ Diverge.

(** The names of the first [n] chunk files. *)
Definition chunk_names (n : nat) : list path := Split <$> seq 0 n.

(** The header row that [csvsort] sets aside, and the rows it sorts. *)
Definition header_of (a : args) (input : list row) : option row :=
  if has_header a then head input else None.

Definition data_of (a : args) (input : list row) : list row :=
  if has_header a then tail input else input.

(** The rows that [if header: writer.writerow(header)] writes. *)
Definition written_header (header : option row) : list row :=
  if truthy header then [default [] header] else [].

(** The preconditions under which a run ends normally: the input exists, it
    has a first line if a header is expected, the columns resolve, there is
    a data row, and every data row has the key fields. *)
Definition runs_through (a : args) (st : state) (input : list row)
    (cols : list column) : Prop :=
  files st !! Outside (input_filename a) = Some input ∧
  (has_header a = true → input ≠ []) ∧
  (parse_columns (columns a) (header_of a input)).2 = Ok cols ∧
  data_of a input ≠ [] ∧
  Forall (λ r, is_ok (sort_key cols r) = true) (data_of a input).

(** The sum of the sizes that [csvsplit] adds up. *)
Definition total_size (getsizeof : row → Z) (rows : list row) : Z :=
  foldr (λ r s, (getsizeof r + s)%Z) 0%Z rows.

Local Open Scope string_scope.
Local Open Scope list_scope.

(** The failure messages of the resolver. *)
Definition raises_with (msg : csv_sort_error) (cols : list column)
    (header : option row) : Prop :=
  ∃ c, (parse_columns cols header).2 = Raise (CsvSortError msg c).

(** The contract of the resolver read as three independent equivalences:
    one failure for each kind of offending specifier that occurs somewhere
    in the list, and the resolved list otherwise. *)
Definition resolution_by_occurrence (cols : list column) (header : option row)
    : Prop :=
  (raises_with ColumnOutOfRange cols header ↔
     ∃ z h, CInt z ∈ cols ∧ header = Some h ∧ (Z.of_nat (length h) ≤ z)%Z) ∧
  (raises_with ColumnNotFound cols header ↔
     ∃ s h, CName s ∈ cols ∧ header = Some h ∧ s ∉ h) ∧
  (raises_with MissingHeader cols header ↔
     ∃ s, CName s ∈ cols ∧ header = None) ∧
  (Forall (λ c, Resolver.offence header c = None) cols →
     (parse_columns cols header).2 = Ok (Resolver.resolve header <$> cols)).

(** The file system of the examples: one input file. *)
Definition one_file (name : string) (rows : list row) : state :=
  State {[ Outside name := rows ]} false [].

Local Close Scope string_scope.

(** ** Pure counterparts of the file operations *)

(** The chunk being written, if a writer is open: a chunk file exists only
    once it holds a row. *)
Definition open_chunk (current : list row) : list (list row) :=
  match current with
  | [] => []
  | _ => [current]
  end.

(** What [csvsplit] puts into the chunk files: [current] holds the rows of
    the chunk being written and [current_size] their running size. *)
Fixpoint chunk_loop (getsizeof : row → Z) (max_size : Z) (reader : list row)
    (current : list row) (current_size : Z) : list (list row) :=
  match reader with
  | [] => open_chunk current
  | r :: reader' =>
      if (max_size <? current_size + getsizeof r)%Z
      then (current ++ [r]) :: chunk_loop getsizeof max_size reader' [] 0%Z
      else chunk_loop getsizeof max_size reader' (current ++ [r])
             (current_size + getsizeof r)%Z
  end.

Definition chunks (getsizeof : row → Z) (reader : list row) (max_size : Z)
    : list (list row) :=
  chunk_loop getsizeof (max_size * 1024 * 1024)%Z reader [] 0%Z.

(** The chunks after the loop over [memorysort], or the exception of the
    first chunk that cannot be sorted. *)
Fixpoint sort_all (cols : list column) (cs : list (list row))
    : outcome (list (list row)) :=
  match cs with
  | [] => Ok []
  | c :: cs' =>
      match list_sort cols c with
      | Ok c' =>
          match sort_all cols cs' with
          | Ok r => Ok (c' :: r)
          | Raise e => Raise e
          | Diverge => Diverge
          end
      | Raise e => Raise e
      | Diverge => Diverge
      end
  end.

(** The rows of the file that the passes of [mergesort] end with, for files
    that hold [cs]. *)
Fixpoint merge_passes (fuel nway : nat) (cs : list (list row)) : list row :=
  if (1 <? length cs)%nat then
    match fuel with
    | O => []
    | S fuel' =>
        merge_passes fuel' nway (drop nway cs ++ [heapq_merge (take nway cs)])
    end
  else
    match cs with
    | c :: _ => c
    | [] => []
    end.

(** The data rows that [csvsort] writes behind the header, or the exception
    it ends with, once the input is read and the columns are resolved. *)
Definition pipeline_rows (getsizeof : row → Z) (cols : list column)
    (max_size : Z) (data : list row) : outcome (list row) :=
  match sort_all cols (chunks getsizeof data max_size) with
  | Ok [] => Raise IndexError
  | Ok cs => Ok (merge_passes (length cs) 2 cs)
  | Raise e => Raise e
  | Diverge => Diverge
  end.

(** The key columns [0, 1, ..., k-1]. *)
Definition leading_columns (k : nat) : list column :=
  (λ i, CInt (Z.of_nat i)) <$> seq 0 k.

(** Whole rows in ascending order, as [heapq.merge] compares them. *)
Definition row_order (a b : row) : Prop := row_le a b = true.

(** A resolved column: [isinstance(column, int)]. *)
Definition is_int_column (c : column) : bool :=
  match c with CInt _ => true | CName _ => false end.


(** What a run of [csvsort] leaves in the destination, as a function of the
    files it finds: the exception it ends with, or the rows of the
    destination. *)
Definition csvsort_result (getsizeof : row → Z) (a : args)
    (fs : gmap path (list row)) : outcome (list row) :=
  match fs !! Outside (input_filename a) with
  | None => Raise (FileNotFoundError (Outside (input_filename a)))
  | Some input =>
      if has_header a && bool_decide (input = []) then Raise StopIteration
      else
        match (parse_columns (columns a) (header_of a input)).2 with
        | Ok cols =>
            match pipeline_rows getsizeof cols (max_size a) (data_of a input) with
            | Ok out => Ok (written_header (header_of a input) ++ out)
            | Raise e => Raise e
            | Diverge => Diverge
            end
        | Raise e => Raise e
        | Diverge => Diverge
        end
  end.

(** * Column resolution *)

Module ResolverFacts.
Import Resolver.

Lemma truthy_effective header : truthy (effective header) = truthy header.
Proof. by destruct header as [[|]|]. Qed.

Lemma effective_truthy header : truthy header = true → effective header = header.
Proof. by destruct header as [[|]|]. Qed.

Lemma parse_columns_loop_effective header n i cols :
  parse_columns_loop header n i cols
  = parse_columns_loop (effective header) n i cols.
Proof.
  revert i cols. induction n as [|n IH]; intros i cols; [done|].
  simpl. rewrite truthy_effective.
  destruct (cols !! i) as [[z|s]|]; [| |done].
  - destruct (truthy header) eqn:T; simpl.
    + rewrite (effective_truthy _ T). destruct (Z.leb _ _); [done|].
      rewrite IH, (effective_truthy _ T). done.
    + rewrite IH. done.
  - destruct (truthy header) eqn:T; [|done].
    rewrite (effective_truthy _ T). destruct (py_in _ _); [|done].
    destruct (py_index _ _); [|done].
    rewrite IH, (effective_truthy _ T). done.
Qed.

Lemma py_in_index s h : py_in s h = true → is_Some (py_index s h).
Proof.
  induction h as [|y h IH]; simpl; [done|].
  rewrite String.eqb_sym. destruct (String.eqb y s); simpl; [eauto|].
  intros [k ->]%IH. simpl. eauto.
Qed.

(** The loop, once it has resolved the specifiers [pre], stops at the first
    offending specifier of the rest. *)
Lemma parse_columns_loop_spec header pre post :
  header ≠ Some [] →
  parse_columns_loop header (length post) (length pre) (pre ++ post)
  = match first_offence header post with
    | None => (pre ++ (resolve header <$> post), None)
    | Some (k, e) =>
        (pre ++ (resolve header <$> take k post) ++ drop k post, Some e)
    end.
Proof.
  intros Hh. revert pre. induction post as [|c post IH]; intros pre.
  { simpl. done. }
  simpl. rewrite list_lookup_middle by done.
  assert (truthy header = bool_decide (is_Some header)) as T.
  { by destruct header as [[|]|]. }
  destruct c as [z|s]; simpl.
  - destruct header as [h|]; simpl in *.
    + rewrite T. simpl. destruct (Z.leb _ _); [done|].
      specialize (IH (pre ++ [CInt z])). rewrite length_app in IH. simpl in IH.
      rewrite Nat.add_1_r, <- app_assoc in IH. simpl in IH. rewrite IH.
      destruct (first_offence _ _) as [[k e]|]; simpl; by rewrite <- app_assoc.
    + specialize (IH (pre ++ [CInt z])). rewrite length_app in IH. simpl in IH.
      rewrite Nat.add_1_r, <- app_assoc in IH. simpl in IH. rewrite IH.
      destruct (first_offence _ _) as [[k e]|]; simpl; by rewrite <- app_assoc.
  - destruct header as [h|]; simpl in *; [|done].
    rewrite T. simpl. destruct (py_in s h) eqn:Hin; [|done].
    destruct (py_in_index _ _ Hin) as [k Hk]. rewrite Hk.
    rewrite insert_app_r_alt by done. rewrite Nat.sub_diag. simpl.
    specialize (IH (pre ++ [CInt (Z.of_nat k)])). rewrite length_app in IH.
    simpl in IH. rewrite Nat.add_1_r, <- app_assoc in IH. simpl in IH.
    rewrite IH.
    destruct (first_offence _ _) as [[j e]|]; simpl; rewrite ?Hk;
      by rewrite <- app_assoc.
Qed.

Lemma parse_columns_spec header cols :
  header ≠ Some [] →
  parse_columns cols header
  = match first_offence header cols with
    | None => (resolve header <$> cols, Ok (resolve header <$> cols))
    | Some (k, e) =>
        ((resolve header <$> take k cols) ++ drop k cols, Raise e)
    end.
Proof.
  intros Hh. unfold parse_columns.
  pose proof (parse_columns_loop_spec header [] cols Hh) as H.
  simpl in H. rewrite H.
  by destruct (first_offence _ _) as [[k e]|].
Qed.

Lemma effective_nonempty header : effective header ≠ Some [].
Proof. by destruct header as [[|]|]. Qed.

(** For every header, empty ones included. *)
Lemma parse_columns_effective header cols :
  parse_columns cols header = parse_columns cols (effective header).
Proof. unfold parse_columns. by rewrite parse_columns_loop_effective. Qed.

Lemma first_offence_None header cols :
  first_offence header cols = None ↔ Forall (λ c, offence header c = None) cols.
Proof.
  induction cols as [|c cols IH]; simpl.
  { split; [constructor|done]. }
  destruct (offence header c) eqn:E.
  - split; [done|]. intros H. inversion H; congruence.
  - rewrite fmap_None, IH. split; [by constructor|]. by inversion 1.
Qed.

Lemma first_offence_Some header cols k e :
  first_offence header cols = Some (k, e) ↔
  ∃ c, cols !! k = Some c ∧ offence header c = Some e ∧
       Forall (λ c, offence header c = None) (take k cols).
Proof.
  revert k. induction cols as [|c cols IH]; intros k; simpl.
  { split; [done|]. by intros (c & ? & _). }
  destruct (offence header c) eqn:E.
  - split.
    + intros [= <- <-]. exists c. simpl. repeat split; [done|constructor].
    + intros (c' & Hk & He & Hpre). destruct k as [|k]; simpl in *.
      * congruence.
      * inversion Hpre; congruence.
  - rewrite fmap_Some. split.
    + intros ([j e'] & Hj & [= -> ->]). apply IH in Hj as (c' & ? & ? & ?).
      exists c'. simpl. repeat split; [done..|by constructor].
    + intros (c' & Hk & He & Hpre). destruct k as [|k]; simpl in *.
      * congruence.
      * exists (k, e). split; [|done]. apply IH. exists c'.
        repeat split; [done..|by inversion Hpre].
Qed.

End ResolverFacts.

(** * Ordering, sorting and merging of rows *)

Lemma string_compare_refl s : String.compare s s = Eq.
Proof.
  pose proof (String.compare_antisym s s) as H.
  destruct (String.compare s s); simpl in H; congruence.
Qed.

Lemma row_compare_antisym a b : row_compare b a = CompOpp (row_compare a b).
Proof.
  revert b. induction a as [|x a IH]; intros [|y b]; simpl; try done.
  rewrite (String.compare_antisym y x).
  destruct (String.compare x y); simpl; [apply IH|done..].
Qed.

Lemma row_compare_eq a b : row_compare a b = Eq ↔ a = b.
Proof.
  revert b. induction a as [|x a IH]; intros [|y b]; simpl; try done.
  destruct (String.compare x y) eqn:E.
  - apply String.compare_eq_iff in E as ->. rewrite IH. split; congruence.
  - split; [done|]. intros [= -> _]. by rewrite string_compare_refl in E.
  - split; [done|]. intros [= -> _]. by rewrite string_compare_refl in E.
Qed.

Lemma row_lt_asym a b : row_lt a b = true → row_lt b a = false.
Proof.
  unfold row_lt. rewrite (row_compare_antisym a b).
  by destruct (row_compare a b).
Qed.

Lemma row_lt_irrefl a : row_lt a a = false.
Proof.
  unfold row_lt. by rewrite (proj2 (row_compare_eq a a) eq_refl).
Qed.

Lemma row_le_not_lt a b : row_le a b = negb (row_lt b a).
Proof.
  unfold row_le, row_lt. rewrite (row_compare_antisym a b).
  by destruct (row_compare a b).
Qed.

(** ** The stable sort *)

Lemma insert_by_key_perm x l : insert_by_key x l ≡ₚ x :: l.
Proof.
  induction l as [|y l IH]; simpl; [done|].
  destruct (row_lt y.1 x.1); [|done].
  rewrite IH. apply Permutation_swap.
Qed.

Lemma stable_sort_perm l : stable_sort l ≡ₚ l.
Proof.
  induction l as [|x l IH]; simpl; [done|].
  by rewrite insert_by_key_perm, IH.
Qed.

Lemma insert_by_key_sorted x l :
  Sorted key_le l → Sorted key_le (insert_by_key x l).
Proof.
  induction 1 as [|y l Hs IH Hhd]; simpl.
  { repeat constructor. }
  destruct (row_lt y.1 x.1) eqn:E.
  - constructor; [done|].
    destruct Hhd as [|z l Hyz]; simpl.
    + constructor. unfold key_le. by apply row_lt_asym.
    + destruct (row_lt z.1 x.1); constructor; [done|].
      unfold key_le. by apply row_lt_asym.
  - constructor; [by constructor|]. by constructor.
Qed.

Lemma stable_sort_sorted l : Sorted key_le (stable_sort l).
Proof.
  induction l as [|x l IH]; simpl; [constructor|].
  by apply insert_by_key_sorted.
Qed.

(** Stability: the elements that carry one key keep their order. *)
Lemma insert_by_key_filter (P : row → bool) x l :
  (∀ a b, P a = true → P b = true → row_lt a b = false) →
  filter (λ y, P y.1 = true) (insert_by_key x l)
  = filter (λ y, P y.1 = true) (x :: l).
Proof.
  intros HP. induction l as [|y l IH]; simpl; [done|].
  destruct (row_lt y.1 x.1) eqn:E; [|done].
  rewrite !filter_cons in *.
  destruct (decide (P y.1 = true)) as [Hy|Hy].
  - destruct (decide (P x.1 = true)) as [Hx|Hx].
    + rewrite (HP _ _ Hy Hx) in E. done.
    + by rewrite IH.
  - by rewrite IH.
Qed.

Lemma stable_sort_stable (k : row) l :
  filter (λ y, row_compare y.1 k = Eq) (stable_sort l)
  = filter (λ y, row_compare y.1 k = Eq) l.
Proof.
  induction l as [|x l IH]; simpl; [done|].
  pose (P := λ a : row, match row_compare a k with Eq => true | _ => false end).
  assert (∀ y : row * row, row_compare y.1 k = Eq ↔ P y.1 = true) as HP.
  { intros y. unfold P. by destruct (row_compare _ _). }
  rewrite !(list_filter_iff _ _ _ HP) in *.
  rewrite insert_by_key_filter.
  - rewrite !filter_cons. by rewrite IH.
  - intros a b Ha Hb. unfold P in *.
    destruct (row_compare a k) eqn:Ea; [|done..].
    destruct (row_compare b k) eqn:Eb; [|done..].
    apply row_compare_eq in Ea as ->. apply row_compare_eq in Eb as ->.
    apply row_lt_irrefl.
Qed.

(** ** Keys *)

Lemma decorate_rows cols rows d :
  decorate cols rows = Ok d → d.*2 = rows.
Proof.
  revert d. induction rows as [|r rows IH]; intros d; simpl.
  { by intros [= <-]. }
  destruct (sort_key cols r); [|done..].
  destruct (decorate cols rows); [|done..].
  intros [= <-]. csimpl. by rewrite (IH _ eq_refl).
Qed.

Lemma decorate_keys cols rows d :
  decorate cols rows = Ok d → Forall (λ kr, sort_key cols kr.2 = Ok kr.1) d.
Proof.
  revert d. induction rows as [|r rows IH]; intros d; simpl.
  { intros [= <-]. constructor. }
  destruct (sort_key cols r) eqn:E; [|done..].
  destruct (decorate cols rows); [|done..].
  intros [= <-]. constructor; [done|]. by apply IH.
Qed.

Lemma sort_key_not_diverge cols r : sort_key cols r ≠ Diverge.
Proof.
  induction cols as [|c cols IH]; simpl; [done|].
  destruct c as [z|s]; simpl; [|done].
  unfold py_getitem.
  repeat (case_match; try done).
Qed.

Lemma decorate_not_diverge cols rows : decorate cols rows ≠ Diverge.
Proof.
  induction rows as [|r rows IH]; simpl; [done|].
  pose proof (sort_key_not_diverge cols r).
  destruct (sort_key cols r); [|done..].
  destruct (decorate cols rows); done.
Qed.

Lemma decorate_ok cols rows :
  Forall (λ r, is_ok (sort_key cols r) = true) rows ↔
  is_ok (decorate cols rows) = true.
Proof.
  induction rows as [|r rows IH]; simpl.
  { split; [done|constructor]. }
  rewrite Forall_cons, IH.
  destruct (sort_key cols r); simpl; [|by intuition..].
  destruct (decorate cols rows); simpl; by intuition.
Qed.

Lemma list_sort_perm cols rows out :
  list_sort cols rows = Ok out → out ≡ₚ rows.
Proof.
  unfold list_sort. destruct (decorate cols rows) as [d| |] eqn:E; [|done..].
  intros [= <-]. rewrite <- (decorate_rows _ _ _ E).
  apply fmap_Permutation, stable_sort_perm.
Qed.

Lemma list_sort_ok cols rows :
  Forall (λ r, is_ok (sort_key cols r) = true) rows ↔
  is_ok (list_sort cols rows) = true.
Proof.
  rewrite decorate_ok. unfold list_sort. by destruct (decorate cols rows).
Qed.

Lemma list_sort_not_diverge cols rows : list_sort cols rows ≠ Diverge.
Proof.
  unfold list_sort. pose proof (decorate_not_diverge cols rows).
  by destruct (decorate cols rows).
Qed.

(** * Sortedness of a chunk *)

Lemma Sorted_decorated cols (d : list (row * row)) :
  Forall (λ kr, sort_key cols kr.2 = Ok kr.1) d →
  Sorted key_le d → Sorted (rows_in_order cols) d.*2.
Proof.
  intros Hk Hs. induction Hs as [|x d Hs IH Hhd]; csimpl; [constructor|].
  apply Forall_cons in Hk as [Hx Hk]. constructor; [by apply IH|].
  destruct Hhd as [|y d Hxy]; csimpl; constructor.
  apply Forall_cons in Hk as [Hy _].
  exists x.1, y.1. split; [done|]. split; [done|].
  rewrite row_le_not_lt. unfold key_le in Hxy. by rewrite Hxy.
Qed.

(** After [memorysort] the rows of the chunk are in ascending key order. *)
Lemma list_sort_sorted cols rows out :
  list_sort cols rows = Ok out → Sorted (rows_in_order cols) out.
Proof.
  unfold list_sort. destruct (decorate cols rows) as [d| |] eqn:E; [|done..].
  intros [= <-]. apply Sorted_decorated; [|apply stable_sort_sorted].
  apply decorate_keys in E. by rewrite stable_sort_perm.
Qed.

Lemma Sorted_weaken {A} (R R' : A → A → Prop) l :
  (∀ a b, R a b → R' a b) → Sorted R l → Sorted R' l.
Proof.
  intros HR. induction 1 as [|x l Hs IH Hhd]; constructor; [done|].
  destruct Hhd; constructor. by apply HR.
Qed.

(** Indexing with a negative integer reads from the end of the list. *)
Lemma py_getitem_negative {A} (l : list A) z :
  (z < 0)%Z →
  py_getitem l z = match reverse l !! Z.to_nat (- z - 1) with
                   | Some x => Ok x
                   | None => Raise IndexError
                   end.
Proof.
  intros Hz. unfold py_getitem.
  assert ((0 <=? z)%Z = false) as -> by lia. simpl.
  assert ((z <? 0)%Z = true) as -> by lia. rewrite andb_true_r.
  destruct (- Z.of_nat (length l) <=? z)%Z eqn:E.
  - assert (Z.to_nat (- z - 1) < length l) as Hlt by lia.
    rewrite reverse_lookup by done.
    replace (length l - S (Z.to_nat (- z - 1)))
      with (Z.to_nat (Z.of_nat (length l) + z)) by lia.
    done.
  - rewrite lookup_ge_None_2; [done|]. rewrite length_reverse. lia.
Qed.

Lemma row_le_singleton x y : row_le [x] [y] = String.leb x y.
Proof.
  unfold row_le, String.leb. simpl. by destruct (String.compare x y).
Qed.

Lemma insert_by_key_hd x l :
  HdRel key_le x l → insert_by_key x l = x :: l.
Proof. destruct 1 as [|y l H]; simpl; [done|]. unfold key_le in H. by rewrite H. Qed.

Lemma stable_sort_sorted_id l : Sorted key_le l → stable_sort l = l.
Proof.
  induction 1 as [|x l Hs IH Hhd]; simpl; [done|].
  fold (stable_sort l). rewrite IH. by apply insert_by_key_hd.
Qed.

Lemma decorate_Sorted cols rows d :
  decorate cols rows = Ok d → Sorted (rows_in_order cols) rows → Sorted key_le d.
Proof.
  intros Hd Hs. pose proof (decorate_keys _ _ _ Hd) as Hk.
  apply decorate_rows in Hd. subst rows.
  induction d as [|x d IH]; [constructor|]. csimpl in Hs.
  apply Sorted_inv in Hs as [Hs Hhd]. apply Forall_cons in Hk as [Hx Hk].
  constructor; [by apply IH|].
  destruct d as [|y d]; constructor. csimpl in Hhd.
  apply HdRel_inv in Hhd as (ka & kb & Ha & Hb & Hle).
  apply Forall_cons in Hk as [Hy _].
  assert (ka = x.1) as -> by congruence. assert (kb = y.1) as -> by congruence.
  unfold key_le. rewrite row_le_not_lt in Hle. by destruct (row_lt y.1 x.1).
Qed.

(** A chunk that is in key order is left as it is. *)
Lemma list_sort_sorted_id cols rows :
  Sorted (rows_in_order cols) rows →
  is_ok (list_sort cols rows) = true →
  list_sort cols rows = Ok rows.
Proof.
  intros Hs. unfold list_sort.
  destruct (decorate cols rows) as [d| |] eqn:E; [|done..]. intros _.
  rewrite (stable_sort_sorted_id d) by by eapply decorate_Sorted.
  by rewrite (decorate_rows _ _ _ E).
Qed.

Lemma filter_fmap_snd_keys cols (k : row) (d : list (row * row)) :
  Forall (λ kr, sort_key cols kr.2 = Ok kr.1) d →
  filter (λ r, sort_key cols r = Ok k) d.*2
  = (filter (λ y, row_compare y.1 k = Eq) d).*2.
Proof.
  induction 1 as [|x d Hx _ IH]; [done|]. csimpl.
  rewrite !filter_cons, IH.
  destruct (decide (sort_key cols x.2 = Ok k)) as [Hk|Hk];
    destruct (decide (row_compare x.1 k = Eq)) as [Hc|Hc]; try done.
  - destruct Hc. apply row_compare_eq. congruence.
  - destruct Hk. apply row_compare_eq in Hc. congruence.
Qed.

(** The sort of a chunk is stable: the rows with one key keep their order. *)
Lemma list_sort_stable cols rows out (k : row) :
  list_sort cols rows = Ok out →
  filter (λ r, sort_key cols r = Ok k) out
  = filter (λ r, sort_key cols r = Ok k) rows.
Proof.
  unfold list_sort. destruct (decorate cols rows) as [d| |] eqn:E; [|done..].
  intros [= <-]. pose proof (decorate_keys _ _ _ E) as Hk.
  rewrite <- (decorate_rows _ _ _ E).
  rewrite !(filter_fmap_snd_keys cols k); [|done|by rewrite stable_sort_perm].
  by rewrite stable_sort_stable.
Qed.

(** ** heapq.merge *)

Lemma min_head_Some i streams j r :
  min_head i streams = Some (j, r) →
  ∃ k rest, j = (i + k)%nat ∧ streams !! k = Some (r :: rest).
Proof.
  revert i j r. induction streams as [|s streams IH]; intros i j r; simpl.
  { done. }
  destruct s as [|r0 s].
  - intros (k & rest & -> & Hk)%IH. exists (S k), rest. split; [lia|done].
  - destruct (min_head (S i) streams) as [[j' r']|] eqn:E.
    + destruct (row_lt r' r0).
      * intros [= <- <-]. apply IH in E as (k & rest & -> & Hk).
        exists (S k), rest. split; [lia|done].
      * intros [= <- <-]. exists O, s. split; [lia|done].
    + intros [= <- <-]. exists O, s. split; [lia|done].
Qed.

Lemma min_head_None i streams :
  min_head i streams = None → concat streams = [].
Proof.
  revert i. induction streams as [|s streams IH]; intros i; simpl; [done|].
  destruct s as [|r0 s]; simpl.
  - apply IH.
  - destruct (min_head (S i) streams) as [[j' r']|]; [|done].
    by destruct (row_lt r' r0).
Qed.

Lemma concat_alter_drop (streams : list (list row)) k r rest :
  streams !! k = Some (r :: rest) →
  concat streams ≡ₚ r :: concat (alter (drop 1) k streams).
Proof.
  revert k. induction streams as [|s streams IH]; intros k; [done|].
  destruct k as [|k]; simpl.
  - by intros [= ->].
  - intros Hk. rewrite (IH _ Hk). by rewrite Permutation_middle.
Qed.

Lemma heapq_merge_fuel_perm fuel streams :
  length (concat streams) ≤ fuel →
  heapq_merge_fuel fuel streams ≡ₚ concat streams.
Proof.
  revert streams. induction fuel as [|fuel IH]; intros streams Hlen; simpl.
  { destruct (concat streams); [done|simpl in Hlen; lia]. }
  destruct (min_head 0 streams) as [[i r]|] eqn:E.
  - apply min_head_Some in E as (k & rest & -> & Hk). simpl.
    pose proof (concat_alter_drop _ _ _ _ Hk) as Hp.
    rewrite Hp. constructor. apply IH.
    apply Permutation_length in Hp. simpl in Hp. lia.
  - by rewrite (min_head_None _ _ E).
Qed.

Lemma heapq_merge_perm streams : heapq_merge streams ≡ₚ concat streams.
Proof. by apply heapq_merge_fuel_perm. Qed.

(** * Files *)

Lemma stored_ext m m' names cs :
  (∀ f, f ∈ names → m' !! f = m !! f) →
  stored m names cs → stored m' names cs.
Proof.
  intros Hext Hs. induction Hs as [|f c names cs Hf Hs IH]; constructor.
  - rewrite Hext; [done|]. by left.
  - apply IH. intros g Hg. apply Hext. by right.
Qed.

Lemma stored_insert_fresh m names cs f c :
  f ∉ names → stored m names cs → stored (<[f := c]> m) names cs.
Proof.
  intros Hf. apply stored_ext. intros g Hg.
  apply lookup_insert_ne. by intros ->.
Qed.

Lemma stored_length m names cs : stored m names cs → length names = length cs.
Proof. apply Forall2_length. Qed.

Lemma returns_bind {A B} (m : M A) (k : A → M B) st Q :
  returns m st (λ a st', returns (k a) st' Q) → returns (bind m k) st Q.
Proof.
  intros (st' & a & Hm & st'' & b & Hk & HQ).
  exists st'', b. split; [|done]. unfold bind. by rewrite Hm.
Qed.

Lemma returns_ret {A} (a : A) st (Q : A → state → Prop) :
  Q a st → returns (ret a) st Q.
Proof. intros HQ. by exists st, a. Qed.

Lemma returns_weaken {A} (m : M A) st (Q Q' : A → state → Prop) :
  (∀ a st', Q a st' → Q' a st') → returns m st Q → returns m st Q'.
Proof. intros HQ (st' & a & Hm & H). exists st', a. eauto. Qed.

(** One statement of a sequence: run it by a lemma, go on with the rest. *)
Ltac step_with tac := apply returns_bind; eapply returns_weaken; [|tac].

Lemma returns_open_w p st :
  returns (open_w p) st (λ _ st', files st' = <[p := []]> (files st)).
Proof. by eexists _, _. Qed.

Lemma returns_writerow p r st c :
  files st !! p = Some c →
  returns (writerow p r) st (λ _ st', files st' = <[p := c ++ [r]]> (files st)).
Proof. intros Hp. eexists _, _. split; [done|]. simpl. by rewrite Hp. Qed.

Lemma returns_writerows p rs st c :
  files st !! p = Some c →
  returns (writerows p rs) st (λ _ st', files st' = <[p := c ++ rs]> (files st)).
Proof.
  revert st c. induction rs as [|r rs IH]; intros st c Hp; simpl.
  - apply returns_ret. rewrite app_nil_r. by rewrite insert_id.
  - apply returns_bind.
    eapply returns_weaken; [|by apply returns_writerow].
    intros ? st' Hst'. simpl in Hst'.
    eapply returns_weaken; [|apply (IH st' (c ++ [r]))].
    + intros ? st'' Hst''. rewrite Hst'', Hst', insert_insert_eq.
      by rewrite <- app_assoc.
    + rewrite Hst'. apply lookup_insert_eq.
Qed.

Lemma returns_read_rows p st c :
  files st !! p = Some c →
  returns (read_rows p) st (λ rs st', rs = c ∧ st' = st).
Proof. intros Hp. exists st, c. unfold read_rows. by rewrite Hp. Qed.

Lemma returns_map_m_read_rows names cs st :
  stored (files st) names cs →
  returns (map_m read_rows names) st (λ rs st', rs = cs ∧ st' = st).
Proof.
  induction 1 as [|f c names cs Hf Hs IH]; simpl.
  { by apply returns_ret. }
  apply returns_bind.
  eapply returns_weaken; [|by apply returns_read_rows].
  intros ? ? [-> ->]. apply returns_bind.
  eapply returns_weaken; [|apply IH].
  intros ? ? [-> ->]. by apply returns_ret.
Qed.

Lemma returns_os_remove p st c :
  files st !! p = Some c →
  returns (os_remove p) st (λ _ st', files st' = delete p (files st)).
Proof. intros Hp. eexists _, _. unfold os_remove. by rewrite Hp. Qed.

Lemma returns_for_each_os_remove names cs st :
  NoDup names → stored (files st) names cs →
  returns (for_each os_remove names) st
    (λ _ st', ∀ g, g ∉ names → files st' !! g = files st !! g).
Proof.
  intros Hnd Hs. revert st Hs.
  induction cs as [|c cs IH] in names, Hnd |- *; intros st Hs.
  { apply Forall2_nil_inv_r in Hs as ->. by apply returns_ret. }
  apply Forall2_cons_inv_r in Hs as (f & names' & Hf & Hs & ->).
  apply NoDup_cons in Hnd as [Hf' Hnd]. simpl.
  apply returns_bind.
  eapply returns_weaken; [|by eapply returns_os_remove].
  intros ? st' Hst'. simpl in Hst'.
  eapply returns_weaken; [|apply (IH names' Hnd)].
  - intros ? st'' Hst'' g Hg. apply not_elem_of_cons in Hg as [Hgf Hg].
    rewrite Hst'' by done. rewrite Hst'. by apply lookup_delete_ne.
  - eapply stored_ext; [|done]. intros g Hg. rewrite Hst'.
    apply lookup_delete_ne. by intros ->.
Qed.

(** ** csvsplit *)

Lemma chunk_names_S n : chunk_names (S n) = chunk_names n ++ [Split n].
Proof. unfold chunk_names. by rewrite seq_S, fmap_app. Qed.

Lemma length_chunk_names n : length (chunk_names n) = n.
Proof. unfold chunk_names. by rewrite length_fmap, length_seq. Qed.

Lemma elem_of_chunk_names f n : f ∈ chunk_names n ↔ ∃ i, f = Split i ∧ i < n.
Proof.
  unfold chunk_names. rewrite list_elem_of_fmap.
  split; intros (i & -> & Hi); exists i; (split; [done|]).
  - apply elem_of_seq in Hi. lia.
  - apply elem_of_seq. lia.
Qed.

Lemma NoDup_chunk_names n : NoDup (chunk_names n).
Proof.
  unfold chunk_names. apply NoDup_fmap_2; [|apply NoDup_seq].
  by intros ?? [= ->].
Qed.

Section Split.

Variable getsizeof : row → Z.

Lemma returns_csvsplit_loop max_size reader : ∀ writer size cs st,
  stored (files st) (chunk_names (length cs)) cs →
  (writer = None ∨
   ∃ cs0 c, cs = cs0 ++ [c] ∧ writer = Some (Split (length cs0))) →
  returns (csvsplit_loop getsizeof max_size reader writer size
             (chunk_names (length cs))) st
    (λ names st', ∃ cs',
       names = chunk_names (length cs') ∧ stored (files st') names cs' ∧
       concat cs' = concat cs ++ reader).
Proof.
  induction reader as [|r reader IH]; intros writer size cs st Hs Hw.
  { apply returns_ret. exists cs. by rewrite app_nil_r. }
  cbn [csvsplit_loop].
  destruct Hw as [->|(cs0 & c & -> & ->)].
  - rewrite length_chunk_names.
    step_with ltac:(apply returns_open_w).
    intros ? st1 Hst1. simpl in Hst1.
    step_with ltac:(apply (returns_writerow _ _ _ [])).
    2:{ rewrite Hst1. apply lookup_insert_eq. }
    intros ? st2 Hst2. simpl in Hst2.
    rewrite Hst1, insert_insert_eq in Hst2.
    assert (stored (files st2) (chunk_names (length (cs ++ [[r]]))) (cs ++ [[r]]))
      as Hs2.
    { rewrite length_app, Nat.add_1_r, chunk_names_S.
      apply Forall2_app.
      - rewrite Hst2. apply stored_insert_fresh; [|done].
        rewrite elem_of_chunk_names. intros (i & [= <-] & ?). lia.
      - repeat constructor. rewrite Hst2. apply lookup_insert_eq. }
    assert (chunk_names (length cs) ++ [Split (length cs)]
            = chunk_names (length (cs ++ [[r]]))) as ->.
    { by rewrite length_app, Nat.add_1_r, chunk_names_S. }
    assert (concat (cs ++ [[r]]) ++ reader = concat cs ++ r :: reader) as Hc.
    { rewrite concat_app. simpl. by rewrite <- app_assoc. }
    destruct (Z.ltb _ _).
    + eapply returns_weaken; [|apply IH; [done|by left]].
      intros names st' (cs' & ? & ? & Hcs'). exists cs'. by rewrite <- Hc.
    + eapply returns_weaken; [|apply IH; [done|right; by exists cs, [r]]].
      intros names st' (cs' & ? & ? & Hcs'). exists cs'. by rewrite <- Hc.
  - assert (files st !! Split (length cs0) = Some c) as Hc0.
    { rewrite length_app, Nat.add_1_r, chunk_names_S in Hs.
      apply Forall2_app_inv in Hs as [_ Hs].
      - by inversion Hs.
      - by rewrite length_chunk_names. }
    apply returns_bind. apply returns_ret.
    step_with ltac:(by apply returns_writerow).
    intros ? st2 Hst2. simpl in Hst2.
    assert (length (cs0 ++ [c]) = length (cs0 ++ [c ++ [r]])) as Hlen.
    { by rewrite !length_app. }
    assert (stored (files st2) (chunk_names (length (cs0 ++ [c ++ [r]])))
              (cs0 ++ [c ++ [r]])) as Hs2.
    { rewrite length_app, Nat.add_1_r, chunk_names_S in Hs |- *.
      apply Forall2_app_inv in Hs as [Hs _]; [|by rewrite length_chunk_names].
      apply Forall2_app.
      - rewrite Hst2. apply stored_insert_fresh; [|done].
        rewrite elem_of_chunk_names. intros (i & [= <-] & ?). lia.
      - repeat constructor. rewrite Hst2. apply lookup_insert_eq. }
    assert (concat (cs0 ++ [c ++ [r]]) ++ reader
            = concat (cs0 ++ [c]) ++ r :: reader) as Hc.
    { rewrite !concat_app. simpl. rewrite !app_nil_r.
      by rewrite <- !app_assoc. }
    rewrite Hlen.
    destruct (Z.ltb _ _).
    + eapply returns_weaken; [|apply IH; [done|by left]].
      intros names st' (cs' & ? & ? & Hcs'). exists cs'. by rewrite <- Hc.
    + eapply returns_weaken;
        [|apply IH; [done|right; by exists cs0, (c ++ [r])]].
      intros names st' (cs' & ? & ? & Hcs'). exists cs'. by rewrite <- Hc.
Qed.

(** [csvsplit] writes the rows of the reader, in order, into the chunk files
    'split0.csv', 'split1.csv', ... and returns their names. *)
Lemma returns_csvsplit reader max_size st :
  returns (csvsplit getsizeof reader max_size) st
    (λ names st', ∃ cs,
       names = chunk_names (length cs) ∧ stored (files st') names cs ∧
       concat cs = reader).
Proof.
  unfold csvsplit.
  apply (returns_csvsplit_loop _ reader None 0%Z [] st); [constructor|by left].
Qed.

End Split.

(** ** memorysort *)

Lemma returns_memorysort f cols st c c' :
  files st !! f = Some c → list_sort cols c = Ok c' →
  returns (memorysort f cols) st (λ _ st', files st' = <[f := c']> (files st)).
Proof.
  intros Hf Hc. unfold memorysort.
  step_with ltac:(by apply returns_read_rows).
  intros ? ? [-> ->]. apply returns_bind. rewrite Hc.
  exists st, c'. split; [done|].
  step_with ltac:(apply returns_open_w).
  intros ? st1 Hst1. simpl in Hst1.
  eapply returns_weaken; [|apply (returns_writerows _ _ _ [])].
  - intros ? st2 Hst2. simpl in Hst2. by rewrite Hst2, Hst1, insert_insert_eq.
  - rewrite Hst1. apply lookup_insert_eq.
Qed.

Lemma memorysort_raises f cols st c :
  files st !! f = Some c → is_ok (list_sort cols c) = false →
  ∃ e, memorysort f cols st = (st, Raise e).
Proof.
  intros Hf Hc. unfold memorysort, bind, read_rows, lift. rewrite Hf.
  pose proof (list_sort_not_diverge cols c).
  destruct (list_sort cols c) as [|e|]; [done| |done]. by exists e.
Qed.

(** The loop of [csvsort] over the chunk files sorts each of them. *)
Lemma returns_for_each_memorysort cols names cs st :
  NoDup names → stored (files st) names cs →
  Forall (λ c, is_ok (list_sort cols c) = true) cs →
  returns (for_each (λ f, memorysort f cols) names) st
    (λ _ st', ∃ cs',
       stored (files st') names cs' ∧
       Forall2 (λ c c', list_sort cols c = Ok c') cs cs' ∧
       ∀ g, g ∉ names → files st' !! g = files st !! g).
Proof.
  intros Hnd Hs. revert st Hs.
  induction cs as [|c cs IH] in names, Hnd |- *; intros st Hs Hok.
  { apply Forall2_nil_inv_r in Hs as ->. apply returns_ret.
    exists []. repeat split; constructor. }
  apply Forall2_cons_inv_r in Hs as (f & names' & Hf & Hs & ->).
  apply NoDup_cons in Hnd as [Hf' Hnd].
  apply Forall_cons in Hok as [Hc Hok].
  destruct (list_sort cols c) as [c'| |] eqn:Ec; [|done..].
  simpl. apply returns_bind.
  eapply returns_weaken; [|by eapply returns_memorysort].
  intros ? st1 Hst1. simpl in Hst1.
  eapply returns_weaken; [|apply (IH names' Hnd)]; [| |done].
  - intros ? st2 (cs' & Hs2 & Hcs' & Hfr). exists (c' :: cs').
    split; [|split].
    + constructor; [|done].
      rewrite Hfr, Hst1 by done. apply lookup_insert_eq.
    + by constructor.
    + intros g [Hgf Hg]%not_elem_of_cons.
      rewrite Hfr, Hst1 by done. by apply lookup_insert_ne.
  - rewrite Hst1. by apply stored_insert_fresh.
Qed.

(** A row without one of the key fields makes the loop raise. *)
Lemma for_each_memorysort_raises cols names cs st :
  NoDup names → stored (files st) names cs →
  Exists (λ c, is_ok (list_sort cols c) = false) cs →
  ∃ st' e, for_each (λ f, memorysort f cols) names st = (st', Raise e).
Proof.
  intros Hnd Hs. revert st Hs.
  induction cs as [|c cs IH] in names, Hnd |- *; intros st Hs Hex.
  { by apply Exists_nil in Hex. }
  apply Forall2_cons_inv_r in Hs as (f & names' & Hf & Hs & ->).
  apply NoDup_cons in Hnd as [Hf' Hnd].
  simpl. unfold bind at 1.
  destruct (is_ok (list_sort cols c)) eqn:Hc.
  - destruct (list_sort cols c) as [c'| |] eqn:Ec; [|done..].
    destruct (returns_memorysort f cols st c c' Hf Ec) as (st1 & [] & -> & Hst1).
    apply Exists_cons in Hex as [Hex|Hex]; [by rewrite Ec in Hex|].
    apply (IH names' Hnd); [|done].
    rewrite Hst1. by apply stored_insert_fresh.
  - destruct (memorysort_raises f cols st c Hf Hc) as [e ->]. by exists st, e.
Qed.

(** ** mergesort *)

Lemma mergesort_loop_unfold fuel cols nway merge_n sorted_filenames :
  mergesort_loop fuel cols nway merge_n sorted_filenames
  = if (1 <? length sorted_filenames)%nat then
      match fuel with
      | O => lift Diverge
      | S fuel' =>
          open_w (Merge merge_n) ;;;
          rows <- map_m (λ filename, yield_csv_rows filename cols)
                    (take nway sorted_filenames) ;;
          writerows (Merge merge_n) (heapq_merge rows) ;;;
          for_each os_remove (take nway sorted_filenames) ;;;
          mergesort_loop fuel' cols nway (S merge_n)
            (drop nway sorted_filenames ++ [Merge merge_n])
      end
    else
      match sorted_filenames with
      | f :: _ => ret f
      | [] => raise IndexError
      end.
Proof. by destruct fuel. Qed.

(** Merge passes over files that hold [cs] end with one file that holds
    the rows of [cs], whatever their order. *)
Lemma returns_mergesort_loop cols nway : ∀ fuel merge_n names cs st,
  2 ≤ nway →
  length names ≤ fuel →
  names ≠ [] →
  NoDup names →
  Forall (λ f, in_workspace f = true) names →
  (∀ j, merge_n ≤ j → Merge j ∉ names) →
  stored (files st) names cs →
  returns (mergesort_loop fuel cols nway merge_n names) st
    (λ f st', ∃ out, in_workspace f = true ∧
       files st' !! f = Some out ∧ out ≡ₚ concat cs).
Proof.
  induction fuel as [|fuel IH];
    intros merge_n names cs st Hn Hfuel Hne Hnd Hws Hfresh Hs.
  { destruct names; [done|simpl in Hfuel; lia]. }
  rewrite mergesort_loop_unfold.
  destruct (1 <? length names)%nat eqn:Hlen.
  2:{ apply Nat.ltb_ge in Hlen.
      destruct names as [|f [|??]]; [done| |simpl in Hlen; lia].
      apply Forall2_cons_inv_l in Hs as (c & cs' & Hf & Hs & ->).
      apply Forall2_nil_inv_l in Hs as ->.
      apply returns_ret. exists c. simpl. rewrite app_nil_r.
      split; [by inversion Hws|done]. }
  apply Nat.ltb_lt in Hlen.
  pose proof (stored_length _ _ _ Hs) as Hlcs.
  assert (Merge merge_n ∉ names) as Hm by by apply Hfresh.
  step_with ltac:(apply returns_open_w).
  intros ? st1 Hst1. simpl in Hst1.
  assert (stored (files st1) names cs) as Hs1.
  { rewrite Hst1. by apply stored_insert_fresh. }
  apply returns_bind.
  eapply returns_weaken;
    [|apply (returns_map_m_read_rows _ (take nway cs)); by apply Forall2_take].
  intros ? ? [-> ->].
  apply returns_bind.
  eapply returns_weaken; [|apply (returns_writerows _ _ _ [])].
  2:{ rewrite Hst1. apply lookup_insert_eq. }
  intros ? st2 Hst2. simpl in Hst2. rewrite Hst1, insert_insert_eq in Hst2.
  assert (stored (files st2) names cs) as Hs2.
  { rewrite Hst2. by apply stored_insert_fresh. }
  rewrite <- (take_drop nway names) in Hnd.
  apply NoDup_app in Hnd as (Hnd1 & Hdisj & Hnd2).
  apply returns_bind.
  eapply returns_weaken;
    [|apply (returns_for_each_os_remove _ (take nway cs));
      [done|by apply Forall2_take]].
  intros ? st3 Hst3. simpl in Hst3.
  assert (Merge merge_n ∉ take nway names) as Hm1.
  { intros H. apply Hm. by apply (subseteq_take nway names). }
  assert (Merge merge_n ∉ drop nway names) as Hm2.
  { intros H. apply Hm. by apply (subseteq_drop nway names). }
  eapply returns_weaken;
    [|apply (IH (S merge_n) _ (drop nway cs ++ [heapq_merge (take nway cs)]));
      [done| | | | | |]].
  - intros f st' (out & ? & ? & Hout). exists out. split; [done|].
    split; [done|]. rewrite Hout, concat_app. simpl. rewrite app_nil_r.
    rewrite heapq_merge_perm. rewrite <- (take_drop nway cs) at 3.
    rewrite concat_app. apply Permutation_app_comm.
  - rewrite length_app, length_drop. simpl. lia.
  - by destruct (drop nway names).
  - apply NoDup_app. split; [done|]. split; [|apply NoDup_singleton].
    intros g Hg ->%list_elem_of_singleton. done.
  - apply Forall_app. split; [|by repeat constructor].
    by apply Forall_drop.
  - intros j Hj [Hg|Hg%list_elem_of_singleton]%elem_of_app.
    + apply (Hfresh j); [lia|]. by apply (subseteq_drop nway names).
    + injection Hg as ->. lia.
  - apply Forall2_app.
    + eapply stored_ext; [|by apply Forall2_drop].
      intros g Hg. rewrite Hst3; [done|]. intros Hg'. by apply (Hdisj g).
    + repeat constructor. rewrite Hst3 by done. rewrite Hst2.
      apply lookup_insert_eq.
Qed.

(** * The pipeline as a whole *)

Lemma concat_sorted_perm cols cs cs' :
  Forall2 (λ c c', list_sort cols c = Ok c') cs cs' → concat cs' ≡ₚ concat cs.
Proof.
  induction 1 as [|c c' cs cs' Hc _ IH]; simpl; [done|].
  by rewrite (list_sort_perm _ _ _ Hc), IH.
Qed.

Lemma rmtree_lookup_outside st s :
  files (rmtree st) !! Outside s = files st !! Outside s.
Proof.
  simpl. destruct (files st !! Outside s) as [c|] eqn:E.
  - by apply map_lookup_filter_Some.
  - apply map_lookup_filter_None. left. done.
Qed.

Lemma rmtree_lookup_workspace st p :
  in_workspace p = true → files (rmtree st) !! p = None.
Proof.
  intros Hp. simpl. apply map_lookup_filter_None. right.
  intros c _. simpl. congruence.
Qed.

Section Whole.

Variable getsizeof : row → Z.

Lemma returns_csvsort_try a st input cols :
  runs_through a st input cols →
  returns (csvsort_try getsizeof a) st
    (λ _ st', ∃ out,
       files st' !! destination a
         = Some (written_header (header_of a input) ++ out) ∧
       out ≡ₚ data_of a input).
Proof.
  intros (Hin & Hhd & Hcols & Hdata & Hkeys). unfold csvsort_try.
  step_with ltac:(by apply returns_read_rows).
  intros ? ? [-> ->].
  apply returns_bind.
  exists st, (header_of a input, data_of a input). split.
  { unfold header_of, data_of. destruct (has_header a); [|done].
    destruct input; [by destruct Hhd|done]. }
  cbn [fst snd].
  apply returns_bind. exists st, cols. split; [by rewrite Hcols|].
  step_with ltac:(apply returns_csvsplit).
  intros names st1 (cs & -> & Hs1 & Hcs).
  apply returns_bind.
  eapply returns_weaken;
    [|apply (returns_for_each_memorysort cols _ cs);
      [apply NoDup_chunk_names|done|]].
  2:{ rewrite <- Hcs in Hkeys. rewrite Forall_concat in Hkeys.
      eapply Forall_impl; [done|]. intros c Hc. by apply list_sort_ok. }
  intros ? st2 (cs' & Hs2 & Hsorted & _).
  pose proof (concat_sorted_perm _ _ _ Hsorted) as Hperm.
  apply returns_bind. unfold mergesort.
  eapply returns_weaken; [|apply (returns_mergesort_loop cols 2 _ 0 _ cs')];
    [|lia|done| |apply NoDup_chunk_names| | |done].
  2:{ intros Hnil%(f_equal length). rewrite length_chunk_names in Hnil.
      apply length_zero_iff_nil in Hnil. subst cs. simpl in Hcs. congruence. }
  2:{ apply Forall_forall. intros f (i & -> & _)%elem_of_chunk_names. done. }
  2:{ intros j _ (i & [=] & _)%elem_of_chunk_names. }
  intros f st3 (out & Hf & Hout & Hperm3).
  assert (f ≠ destination a) as Hfd.
  { intros ->. done. }
  step_with ltac:(apply returns_open_w).
  intros ? st4 Hst4. simpl in Hst4.
  apply returns_bind.
  eapply (returns_weaken _ _
    (λ _ st5, files st5 = <[destination a := written_header (header_of a input)]>
                            (files st3))).
  2:{ unfold written_header. destruct (truthy (header_of a input)).
      - eapply returns_weaken; [|apply (returns_writerow _ _ _ [])].
        + intros ? st5 Hst5. simpl in Hst5.
          by rewrite Hst5, Hst4, insert_insert_eq.
        + rewrite Hst4. apply lookup_insert_eq.
      - by apply returns_ret. }
  intros ? st5 Hst5. simpl in Hst5.
  apply returns_bind.
  eapply returns_weaken; [|apply (returns_read_rows _ _ out)].
  2:{ rewrite Hst5. by rewrite lookup_insert_ne. }
  intros ? ? [-> ->].
  eapply returns_weaken; [|apply returns_writerows].
  2:{ rewrite Hst5. apply lookup_insert_eq. }
  intros ? st6 Hst6. simpl in Hst6. exists out. split.
  - rewrite Hst6. apply lookup_insert_eq.
  - by rewrite Hperm3, Hperm, Hcs.
Qed.

Lemma bind_ok {A B} (m : M A) (k : A → M B) st st1 a :
  m st = (st1, Ok a) → bind m k st = k a st1.
Proof. intros H. unfold bind. by rewrite H. Qed.

Lemma bind_raise {A B} (m : M A) (k : A → M B) st st1 e :
  m st = (st1, Raise e) → bind m k st = (st1, Raise e).
Proof. intros H. unfold bind. by rewrite H. Qed.

Lemma not_keyable_chunk cols cs :
  ¬ Forall (λ r, is_ok (sort_key cols r) = true) (concat cs) →
  Exists (λ c, is_ok (list_sort cols c) = false) cs.
Proof.
  intros Hn. apply not_Forall_Exists in Hn; [|apply _].
  induction cs as [|c cs IH]; simpl in Hn; [by apply Exists_nil in Hn|].
  apply Exists_app in Hn as [Hn|Hn]; [|right; by apply IH].
  left. apply Exists_not_Forall in Hn.
  destruct (is_ok (list_sort cols c)) eqn:E; [|done].
  by apply list_sort_ok in E.
Qed.

(** A run that returns normally met the preconditions. *)
Lemma csvsort_try_ok_inv a st st' :
  csvsort_try getsizeof a st = (st', Ok ()) →
  ∃ input cols, runs_through a st input cols.
Proof.
  intros H. unfold csvsort_try in H.
  destruct (files st !! Outside (input_filename a)) as [input|] eqn:Hin.
  2:{ erewrite bind_raise in H; [done|]. unfold read_rows. by rewrite Hin. }
  erewrite bind_ok in H; [|unfold read_rows; by rewrite Hin].
  assert (has_header a = true → input ≠ []) as Hhd.
  { intros Hh ->. rewrite Hh in H. by erewrite bind_raise in H. }
  erewrite (bind_ok _ _ _ st (header_of a input, data_of a input)) in H.
  2:{ unfold header_of, data_of. destruct (has_header a); [|done].
      destruct input; [by destruct Hhd|done]. }
  cbn [fst snd] in H.
  destruct (parse_columns (columns a) (header_of a input)).2 as [cols|e|] eqn:Hp;
    [|done..].
  erewrite bind_ok in H; [|done].
  exists input, cols. split; [done|]. split; [done|]. split; [done|].
  destruct (returns_csvsplit getsizeof (data_of a input) (max_size a) st)
    as (st1 & names & Hsp & cs & -> & Hs1 & Hcs).
  split.
  - intros Hd. rewrite Hd in H. done.
  - destruct (decide (Forall (λ r, is_ok (sort_key cols r) = true)
                        (data_of a input))) as [|Hn]; [done|].
    erewrite bind_ok in H by done.
    rewrite <- Hcs in Hn. apply not_keyable_chunk in Hn.
    destruct (for_each_memorysort_raises cols _ cs st1
                (NoDup_chunk_names _) Hs1 Hn) as (st2 & e & Hr).
    by erewrite bind_raise in H.
Qed.

(** A resolution failure leaves [csvsort] at once. *)
Lemma csvsort_try_parse_raises a st input e :
  files st !! Outside (input_filename a) = Some input →
  (has_header a = true → input ≠ []) →
  (parse_columns (columns a) (header_of a input)).2 = Raise e →
  csvsort_try getsizeof a st = (st, Raise e).
Proof.
  intros Hin Hhd Hp. unfold csvsort_try.
  erewrite bind_ok; [|unfold read_rows; by rewrite Hin].
  erewrite (bind_ok _ _ _ st (header_of a input, data_of a input)).
  2:{ unfold header_of, data_of. destruct (has_header a); [|done].
      destruct input; [by destruct Hhd|done]. }
  cbn [fst snd]. erewrite bind_raise; [done|]. unfold lift. by rewrite Hp.
Qed.

(** Without data rows there is no chunk file, and [mergesort] fails on
    [sorted_filenames[0]]. *)
Lemma csvsort_try_no_data a st input cols :
  files st !! Outside (input_filename a) = Some input →
  (has_header a = true → input ≠ []) →
  (parse_columns (columns a) (header_of a input)).2 = Ok cols →
  data_of a input = [] →
  csvsort_try getsizeof a st = (st, Raise IndexError).
Proof.
  intros Hin Hhd Hp Hd. unfold csvsort_try.
  erewrite bind_ok; [|unfold read_rows; by rewrite Hin].
  erewrite (bind_ok _ _ _ st (header_of a input, data_of a input)).
  2:{ unfold header_of, data_of. destruct (has_header a); [|done].
      destruct input; [by destruct Hhd|done]. }
  cbn [fst snd]. erewrite bind_ok; [|unfold lift; by rewrite Hp].
  by rewrite Hd.
Qed.

End Whole.

(** * Termination *)

Create HintDb halts discriminated.

Lemma halts_ret {A} (a : A) : halts (ret a).
Proof. by intros st. Qed.

Lemma halts_raise {A} e : halts (raise (A := A) e).
Proof. by intros st. Qed.

Lemma halts_lift {A} (o : outcome A) : o ≠ Diverge → halts (lift o).
Proof. by intros H st. Qed.

Lemma halts_bind {A B} (m : M A) (k : A → M B) :
  halts m → (∀ a, halts (k a)) → halts (bind m k).
Proof.
  intros Hm Hk st. unfold bind. specialize (Hm st).
  destruct (m st) as [st' [a|e|]]; simpl in *; [apply Hk|done..].
Qed.

Lemma halts_open_w p : halts (open_w p).
Proof. by intros st. Qed.

Lemma halts_writerow p r : halts (writerow p r).
Proof. by intros st. Qed.

Lemma halts_read_rows p : halts (read_rows p).
Proof. intros st. unfold read_rows. by destruct (files st !! p). Qed.

Lemma halts_yield_csv_rows p cols : halts (yield_csv_rows p cols).
Proof. apply halts_read_rows. Qed.

Lemma halts_os_remove p : halts (os_remove p).
Proof. intros st. unfold os_remove. by destruct (files st !! p). Qed.

#[local] Hint Resolve halts_ret halts_raise halts_open_w halts_writerow
  halts_read_rows halts_yield_csv_rows halts_os_remove : halts.
#[local] Hint Extern 1 (halts (bind _ _)) =>
  apply halts_bind; [|intros ?] : halts.
#[local] Hint Extern 2 (halts (match ?x with _ => _ end)) =>
  destruct x : halts.

Lemma halts_writerows p rs : halts (writerows p rs).
Proof. induction rs; simpl; eauto with halts. Qed.

Lemma halts_for_each {A} (f : A → M unit) l :
  (∀ x, halts (f x)) → halts (for_each f l).
Proof. intros Hf. induction l; simpl; eauto with halts. Qed.

Lemma halts_map_m {A B} (f : A → M B) l :
  (∀ x, halts (f x)) → halts (map_m f l).
Proof. intros Hf. induction l; simpl; eauto 7 with halts. Qed.

#[local] Hint Resolve halts_writerows halts_for_each halts_map_m : halts.

Lemma halts_csvsplit getsizeof reader max_size :
  halts (csvsplit getsizeof reader max_size).
Proof.
  unfold csvsplit.
  generalize (max_size * 1024 * 1024)%Z (@nil path) 0%Z (@None path).
  induction reader as [|r reader IH]; intros m names size writer;
    cbn [csvsplit_loop]; eauto 7 with halts.
Qed.

Lemma parse_columns_not_diverge cols header :
  (parse_columns cols header).2 ≠ Diverge.
Proof.
  unfold parse_columns.
  by destruct (parse_columns_loop _ _ _ _) as [? [?|]].
Qed.

#[local] Hint Resolve halts_csvsplit halts_lift list_sort_not_diverge
  parse_columns_not_diverge : halts.

Lemma halts_memorysort f cols : halts (memorysort f cols).
Proof. unfold memorysort. eauto 9 with halts. Qed.

(** With a fan-in of two or more every pass leaves fewer files, so the
    passes end before the fuel does. *)
Lemma halts_mergesort_loop cols nway fuel merge_n names :
  2 ≤ nway → length names ≤ fuel →
  halts (mergesort_loop fuel cols nway merge_n names).
Proof.
  intros Hn. revert merge_n names.
  induction fuel as [|fuel IH]; intros merge_n names Hlen;
    rewrite mergesort_loop_unfold.
  - destruct names; [apply halts_raise|simpl in Hlen; lia].
  - destruct (1 <? length names)%nat eqn:E; [|eauto with halts].
    apply Nat.ltb_lt in E.
    assert (length (drop nway names ++ [Merge merge_n]) ≤ fuel).
    { rewrite length_app, length_drop. simpl. lia. }
    eauto 12 with halts.
Qed.

Lemma halts_mergesort names cols : halts (mergesort names cols 2).
Proof. by apply halts_mergesort_loop. Qed.

#[local] Hint Resolve halts_memorysort halts_mergesort : halts.

Lemma halts_csvsort_try getsizeof a : halts (csvsort_try getsizeof a).
Proof. unfold csvsort_try. eauto 30 with halts. Qed.

(** The workspace after [try: ... finally: shutil.rmtree(tmp_dir)], for
    every body and every way out of it. *)
Lemma try_finally_rmtree {A} (body : M A) st :
  let st' := (try_finally body rmtree st).1 in
  tmp_dir_exists st' = false ∧
  (∀ p, in_workspace p = true → files st' !! p = None) ∧
  last (trace st') = Some EvRmtree.
Proof.
  unfold try_finally. destruct (body st) as [st1 r]. simpl.
  split; [done|]. split; [|apply last_snoc].
  intros p Hp. by apply (rmtree_lookup_workspace st1).
Qed.

Lemma try_finally_outcome {A} (body : M A) finalizer st :
  (try_finally body finalizer st).2 = (body st).2.
Proof. unfold try_finally. by destruct (body st). Qed.

(** * Runs with one chunk *)

Section One.

Variable getsizeof : row → Z.
Hypothesis getsizeof_nonneg : ∀ r, (0 ≤ getsizeof r)%Z.

Lemma total_size_nonneg rows : (0 ≤ total_size getsizeof rows)%Z.
Proof.
  induction rows as [|r rows IH]; simpl; [done|].
  pose proof (getsizeof_nonneg r). lia.
Qed.

Lemma returns_csvsplit_loop_one max_size reader : ∀ f size names st c,
  (size + total_size getsizeof reader ≤ max_size)%Z →
  files st !! f = Some c →
  returns (csvsplit_loop getsizeof max_size reader (Some f) size names) st
    (λ ns st', ns = names ∧ files st' = <[f := c ++ reader]> (files st)).
Proof.
  induction reader as [|r reader IH]; intros f size names st c Hsz Hf.
  { apply returns_ret. split; [done|]. by rewrite app_nil_r, insert_id. }
  cbn [csvsplit_loop]. simpl in Hsz. pose proof (total_size_nonneg reader).
  apply returns_bind, returns_ret.
  step_with ltac:(by apply returns_writerow).
  intros ? st1 Hst1. simpl in Hst1.
  rewrite (proj2 (Z.ltb_ge _ _)) by lia.
  eapply returns_weaken; [|apply (IH f _ names st1 (c ++ [r]))].
  - intros ns st' [-> Hst']. split; [done|].
    by rewrite Hst', Hst1, insert_insert_eq, <- app_assoc.
  - lia.
  - rewrite Hst1. apply lookup_insert_eq.
Qed.

Lemma returns_csvsplit_one reader max_size st :
  reader ≠ [] →
  (total_size getsizeof reader ≤ max_size * 1024 * 1024)%Z →
  returns (csvsplit getsizeof reader max_size) st
    (λ ns st', ns = [Split 0] ∧ files st' = <[Split 0 := reader]> (files st)).
Proof.
  intros Hne Hsz. destruct reader as [|r reader]; [done|].
  unfold csvsplit. cbn [csvsplit_loop]. simpl in Hsz.
  pose proof (total_size_nonneg reader).
  step_with ltac:(apply returns_open_w).
  intros ? st1 Hst1. simpl in Hst1.
  step_with ltac:(apply (returns_writerow _ _ _ [])).
  2:{ rewrite Hst1. apply lookup_insert_eq. }
  intros ? st2 Hst2. simpl in Hst2. rewrite Hst1, insert_insert_eq in Hst2.
  rewrite (proj2 (Z.ltb_ge _ _)) by lia.
  eapply returns_weaken; [|apply (returns_csvsplit_loop_one _ _ _ _ _ _ [r])].
  - intros ns st' [-> Hst']. split; [done|].
    by rewrite Hst', Hst2, insert_insert_eq.
  - lia.
  - rewrite Hst2. apply lookup_insert_eq.
Qed.

(** When the data rows fit into one chunk there is no merge pass, and the
    output is the header followed by the sorted chunk. *)
Lemma returns_csvsort_one_chunk a st input cols :
  runs_through a st input cols →
  (total_size getsizeof (data_of a input) ≤ max_size a * 1024 * 1024)%Z →
  ∃ st' out,
    csvsort getsizeof a st = (st', Ok ()) ∧
    files st' !! destination a
      = Some (written_header (header_of a input) ++ out) ∧
    list_sort cols (data_of a input) = Ok out.
Proof.
  intros (Hin & Hhd & Hcols & Hdata & Hkeys) Hsz.
  apply list_sort_ok in Hkeys.
  destruct (list_sort cols (data_of a input)) as [out| |] eqn:Hsort; [|done..].
  cut (returns (csvsort_try getsizeof a) (makedirs st) (λ _ st',
         files st' !! destination a
           = Some (written_header (header_of a input) ++ out))).
  { intros (st1 & [] & Htry & Hout). exists (rmtree st1), out.
    unfold csvsort, try_finally. rewrite Htry. split; [done|]. split; [|done].
    unfold destination in *. by rewrite rmtree_lookup_outside. }
  unfold csvsort_try.
  step_with ltac:(by apply returns_read_rows).
  intros ? ? [-> ->].
  apply returns_bind.
  exists (makedirs st), (header_of a input, data_of a input). split.
  { unfold header_of, data_of. destruct (has_header a); [|done].
    destruct input; [by destruct Hhd|done]. }
  cbn [fst snd].
  apply returns_bind. exists (makedirs st), cols. split; [by rewrite Hcols|].
  apply returns_bind.
  eapply returns_weaken; [|by apply returns_csvsplit_one].
  intros ? st1 [-> Hst1]. cbn [for_each].
  apply returns_bind. apply returns_bind.
  eapply returns_weaken;
    [|eapply (returns_memorysort _ _ _ (data_of a input) out); [|done]].
  2:{ rewrite Hst1. apply lookup_insert_eq. }
  intros ? st2 Hst2. simpl in Hst2. rewrite Hst1, insert_insert_eq in Hst2.
  apply returns_ret. apply returns_bind. apply returns_ret.
  step_with ltac:(apply returns_open_w).
  intros ? st4 Hst4. simpl in Hst4.
  apply returns_bind.
  eapply (returns_weaken _ _
    (λ _ st5, files st5 = <[destination a := written_header (header_of a input)]>
                            (files st2))).
  2:{ unfold written_header. destruct (truthy (header_of a input)).
      - eapply returns_weaken; [|apply (returns_writerow _ _ _ [])].
        + intros ? st5 Hst5. simpl in Hst5.
          by rewrite Hst5, Hst4, insert_insert_eq.
        + rewrite Hst4. apply lookup_insert_eq.
      - by apply returns_ret. }
  intros ? st5 Hst5. simpl in Hst5.
  apply returns_bind.
  eapply returns_weaken; [|apply (returns_read_rows _ _ out)].
  2:{ rewrite Hst5, lookup_insert_ne by done. rewrite Hst2.
      apply lookup_insert_eq. }
  intros ? ? [-> ->].
  eapply returns_weaken; [|apply returns_writerows].
  2:{ rewrite Hst5. apply lookup_insert_eq. }
  intros ? st6 Hst6. simpl in Hst6. rewrite Hst6. apply lookup_insert_eq.
Qed.

(** X16.  When the sizes are not negative and the data rows together stay
    within [max_size], there is one chunk and no merge: the output is in
    key order, rows with equal keys keep their input order, and data that
    is in key order is left as it is. *)
Lemma csvsort_one_chunk_ordered a st input cols :
  runs_through a st input cols →
  (total_size getsizeof (data_of a input) ≤ max_size a * 1024 * 1024)%Z →
  ∃ st' out,
    csvsort getsizeof a st = (st', Ok ()) ∧
    files st' !! destination a
      = Some (written_header (header_of a input) ++ out) ∧
    Sorted (rows_in_order cols) out ∧
    (∀ k, filter (λ r, sort_key cols r = Ok k) out
          = filter (λ r, sort_key cols r = Ok k) (data_of a input)) ∧
    (Sorted (rows_in_order cols) (data_of a input) → out = data_of a input).
Proof.
  intros Hrun Hsz.
  destruct (returns_csvsort_one_chunk a st input cols Hrun Hsz)
    as (st' & out & Hret & Hout & Hsort).
  exists st', out. split; [done|]. split; [done|].
  split; [by eapply list_sort_sorted|].
  split; [intros k; by apply list_sort_stable|].
  intros Hs. apply list_sort_sorted_id in Hs; [congruence|].
  by rewrite Hsort.
Qed.

End One.

(** * Properties of the pipeline *)

Local Open Scope string_scope.
Local Open Scope list_scope.

(** C1.  Order correctness asks that the key tuples of adjacent output rows
    ascend.  The code breaks it when the rows are spread over several
    chunks: with [max_size = 0] every row is a chunk of its own, the chunks
    are merged by [heapq.merge] on whole rows although the sort is on
    column 1, and the output holds key "2" before key "1". *)
Theorem csvsort_output_not_in_key_order :
  let a := Args "in.csv" [CInt 1%Z] "out.csv" 0 true in
  let st := one_file "in.csv" [["k"; "v"]; ["a"; "2"]; ["b"; "1"]] in
  (csvsort cpython_getsizeof a st).2 = Ok () ∧
  files (csvsort cpython_getsizeof a st).1 !! Outside "out.csv"
    = Some [["k"; "v"]; ["a"; "2"]; ["b"; "1"]] ∧
  sort_key [CInt 1%Z] ["a"; "2"] = Ok ["2"] ∧
  sort_key [CInt 1%Z] ["b"; "1"] = Ok ["1"] ∧
  row_le ["2"] ["1"] = false ∧
  ¬ Sorted (rows_in_order [CInt 1%Z]) [["a"; "2"]; ["b"; "1"]].
Proof.
  repeat split; try by vm_compute.
  intros H. apply Sorted_inv in H as [_ H]. apply HdRel_inv in H.
  destruct H as (ka & kb & [= <-] & [= <-] & H). by vm_compute in H.
Qed.

(** C2.  Stability asks that rows with equal key tuples keep their input
    order.  The code breaks it: two rows with the same key "a" that fall
    into different chunks leave the merge in whole-row order, and the row
    that came second in the input is first in the output. *)
Theorem csvsort_equal_keys_reordered :
  let a := Args "in.csv" [CInt 0%Z] "out.csv" 0 true in
  let st := one_file "in.csv" [["k"; "v"]; ["a"; "2"]; ["a"; "1"]] in
  (csvsort cpython_getsizeof a st).2 = Ok () ∧
  files (csvsort cpython_getsizeof a st).1 !! Outside "out.csv"
    = Some [["k"; "v"]; ["a"; "1"]; ["a"; "2"]] ∧
  sort_key [CInt 0%Z] ["a"; "2"] = Ok ["a"] ∧
  sort_key [CInt 0%Z] ["a"; "1"] = Ok ["a"].
Proof. repeat split; by vm_compute. Qed.

(** C3.  An input of a header and no data row is to give an output of the
    header alone, without an error.  The code breaks it: [csvsplit] returns
    no file name, [mergesort] raises [IndexError] on the empty list, and
    [csvsort] ends with that exception without writing the output file. *)
Theorem csvsort_header_only_raises :
  let a := Args "in.csv" [CInt 0%Z] "out.csv" 100 true in
  let st := one_file "in.csv" [["k"; "v"]] in
  (csvsort cpython_getsizeof a st).2 = Raise IndexError ∧
  files (csvsort cpython_getsizeof a st).1 !! Outside "out.csv" = None ∧
  (∀ getsizeof max_size st', csvsplit getsizeof [] max_size st' = (st', Ok [])) ∧
  (∀ cols nway st', mergesort [] cols nway st' = (st', Raise IndexError)).
Proof. repeat split; by vm_compute. Qed.

(** C4.  Completeness.  Whenever [csvsort] returns, the destination holds
    the header it wrote followed by a permutation of the data rows of the
    input; and it does return whenever the input can be read, the columns
    resolve, there is a data row and every data row has the key fields. *)
Theorem csvsort_completeness getsizeof a st input :
  files st !! Outside (input_filename a) = Some input →
  (∀ st', csvsort getsizeof a st = (st', Ok ()) →
     ∃ out, files st' !! destination a
              = Some (written_header (header_of a input) ++ out) ∧
            out ≡ₚ data_of a input) ∧
  (∀ cols, runs_through a st input cols →
     ∃ st', csvsort getsizeof a st = (st', Ok ())).
Proof.
  intros Hin.
  assert (∀ cols, runs_through a st input cols →
    ∃ st' out, csvsort getsizeof a st = (st', Ok ()) ∧
      files st' !! destination a
        = Some (written_header (header_of a input) ++ out) ∧
      out ≡ₚ data_of a input) as Htotal.
  { intros cols Hrun.
    destruct (returns_csvsort_try getsizeof a (makedirs st) input cols Hrun)
      as (st1 & [] & Htry & out & Hout & Hperm).
    exists (rmtree st1), out. unfold csvsort, try_finally. rewrite Htry.
    split; [done|]. split; [|done].
    unfold destination in *. by rewrite rmtree_lookup_outside. }
  split.
  - intros st' Hret. unfold csvsort, try_finally in Hret.
    destruct (csvsort_try getsizeof a (makedirs st)) as [st1 r] eqn:Htry.
    injection Hret as <- ->.
    destruct (csvsort_try_ok_inv getsizeof a _ _ Htry)
      as (input' & cols & Hrun).
    assert (input' = input) as ->.
    { destruct Hrun as [Hin' _]. simpl in Hin'. congruence. }
    destruct (Htotal cols Hrun) as (st' & out & Hret & Hout & Hperm).
    unfold csvsort, try_finally in Hret. rewrite Htry in Hret. injection Hret as <-.
    by exists out.
  - intros cols Hrun. destruct (Htotal cols Hrun) as (st' & out & ? & _).
    by exists st'.
Qed.

Lemma csvsort_completeness_witness :
  let a := Args "in.csv" [CName "v"] "out.csv" 0 true in
  let input := [["k"; "v"]; ["b"; "2"]; ["a"; "1"]; ["a"; "3"]] in
  let st := one_file "in.csv" input in
  files st !! Outside (input_filename a) = Some input ∧
  ∃ st' out,
    csvsort cpython_getsizeof a st = (st', Ok ()) ∧
    files st' !! destination a
      = Some (written_header (header_of a input) ++ out) ∧
    out ≡ₚ data_of a input.
Proof.
  intros a input st. split; [reflexivity|].
  destruct (csvsort_completeness cpython_getsizeof a st input eq_refl)
    as [Hpartial Htotal].
  assert (runs_through a st input [CInt 1%Z]) as Hrun.
  { split; [reflexivity|]. split; [discriminate|]. split; [reflexivity|].
    split; [discriminate|]. repeat constructor. }
  destruct (Htotal [CInt 1%Z] Hrun) as [st' Hret].
  destruct (Hpartial st' Hret) as (out & Hout & Hperm).
  exists st', out. split; [exact Hret|]. split; [exact Hout|exact Hperm].
Defined.

(** C5 as stated fails twice: a list with two offending specifiers raises
    only for the first of them, and an empty header row switches the range
    check off. *)
Lemma resolution_by_occurrence_fails :
  ¬ resolution_by_occurrence [CName "zz"; CInt 7%Z] (Some ["a"]) ∧
  ¬ resolution_by_occurrence [CInt 0%Z] (Some []).
Proof.
  split.
  - intros ([_ H] & _). destruct H as [c Hc]; [|by vm_compute in Hc].
    exists 7%Z, ["a"]. split; [|split; [done|simpl; lia]].
    apply list_elem_of_lookup. by exists 1.
  - intros ([_ H] & _). destruct H as [c Hc]; [|by vm_compute in Hc].
    exists 0%Z, []. split; [|split; [done|simpl; lia]].
    apply list_elem_of_lookup. by exists 0.
Qed.

(** C5, amended.  For a header that is absent or not empty,
    [parse_columns] fails at the first offending specifier, in list order,
    with the error of that specifier, and returns the resolved list exactly
    when no specifier offends.  When [csvsort] meets such a failure, the
    only things it does to the file system are to create and to remove the
    workspace directory. *)
Theorem parse_columns_first_offence cols header :
  header ≠ Some [] →
  (∀ e, (parse_columns cols header).2 = Raise e ↔
     ∃ k c, cols !! k = Some c ∧ Resolver.offence header c = Some e ∧
            Forall (λ c', Resolver.offence header c' = None) (take k cols)) ∧
  (∀ idx, (parse_columns cols header).2 = Ok idx ↔
     Forall (λ c, Resolver.offence header c = None) cols ∧
     idx = Resolver.resolve header <$> cols) ∧
  (∀ getsizeof a st input e,
     files st !! Outside (input_filename a) = Some input →
     (has_header a = true → input ≠ []) →
     (parse_columns (columns a) (header_of a input)).2 = Raise e →
     csvsort getsizeof a st = (rmtree (makedirs st), Raise e) ∧
     trace (rmtree (makedirs st)) = trace st ++ [EvMkdir; EvRmtree]).
Proof.
  intros Hh. rewrite (ResolverFacts.parse_columns_spec _ _ Hh).
  split; [|split].
  - intros e. destruct (Resolver.first_offence header cols) as [[k e']|] eqn:E;
      simpl.
    + split.
      * intros [= <-]. exists k. by apply ResolverFacts.first_offence_Some.
      * intros (k' & Hk'). apply ResolverFacts.first_offence_Some in Hk'. congruence.
    + split; [done|]. intros (k' & Hk').
      apply ResolverFacts.first_offence_Some in Hk'. congruence.
  - intros idx. destruct (Resolver.first_offence header cols) as [[k e']|] eqn:E;
      simpl.
    + split; [done|]. intros [Hn _].
      apply ResolverFacts.first_offence_None in Hn. congruence.
    + apply ResolverFacts.first_offence_None in E. split.
      * by intros [= <-].
      * by intros [_ ->].
  - intros getsizeof a st input e Hin Hhd Hp. split.
    + unfold csvsort, try_finally.
      by rewrite (csvsort_try_parse_raises getsizeof a (makedirs st) input e).
    + simpl. by rewrite <- app_assoc.
Qed.

Lemma parse_columns_first_offence_witness :
  Some ["a"; "b"] ≠ Some [] ∧
  (∀ e, (parse_columns [CName "b"; CInt 5%Z; CName "c"] (Some ["a"; "b"])).2
        = Raise e ↔
     ∃ k c, [CName "b"; CInt 5%Z; CName "c"] !! k = Some c ∧
            Resolver.offence (Some ["a"; "b"]) c = Some e ∧
            Forall (λ c', Resolver.offence (Some ["a"; "b"]) c' = None)
              (take k [CName "b"; CInt 5%Z; CName "c"])).
Proof.
  split; [discriminate|].
  apply (parse_columns_first_offence [CName "b"; CInt 5%Z; CName "c"]
           (Some ["a"; "b"])).
  discriminate.
Defined.

(** C6.  Header preservation asks that the first line of the output is the
    first line of the input, also when it parses to the empty row.  The
    code breaks it there: the empty row is set aside like any header, but
    [if header:] is false for it and it is not written back, so the output
    starts with a data row. *)
Theorem csvsort_empty_header_dropped :
  let a := Args "in.csv" [CInt 0%Z] "out.csv" 100 true in
  let st := one_file "in.csv" [[]; ["b"]; ["a"]] in
  (csvsort cpython_getsizeof a st).2 = Ok () ∧
  files (csvsort cpython_getsizeof a st).1 !! Outside "out.csv"
    = Some [["a"]; ["b"]] ∧
  head [[]; ["b"]; ["a"]] = Some ([] : row) ∧
  head [["a"]; ["b"]] ≠ Some ([] : row).
Proof. repeat split; by vm_compute. Qed.

(** C7 as stated fails: a resolved name is written into the argument list. *)
Lemma parse_columns_modifies_argument :
  (parse_columns [CName "b"] (Some ["a"; "b"])).1 = [CInt 1%Z] ∧
  (parse_columns [CName "b"] (Some ["a"; "b"])).1 ≠ [CName "b"].
Proof. split; by vm_compute. Qed.

(** C7, amended.  [parse_columns] touches no file, and it overwrites the
    name specifiers of its argument list with their indices, up to the
    first offending specifier; integer specifiers stay as they are.  The
    list it returns is the argument list. *)
Theorem parse_columns_in_place cols header :
  parse_columns cols header
  = match Resolver.first_offence (Resolver.effective header) cols with
    | None =>
        (Resolver.resolve (Resolver.effective header) <$> cols,
         Ok (Resolver.resolve (Resolver.effective header) <$> cols))
    | Some (k, e) =>
        ((Resolver.resolve (Resolver.effective header) <$> take k cols)
           ++ drop k cols, Raise e)
    end ∧
  (∀ z, Resolver.resolve (Resolver.effective header) (CInt z) = CInt z) ∧
  length (parse_columns cols header).1 = length cols ∧
  (∀ st, (lift (parse_columns cols header).2 st).1 = st).
Proof.
  assert (parse_columns cols header
    = match Resolver.first_offence (Resolver.effective header) cols with
      | None =>
          (Resolver.resolve (Resolver.effective header) <$> cols,
           Ok (Resolver.resolve (Resolver.effective header) <$> cols))
      | Some (k, e) =>
          ((Resolver.resolve (Resolver.effective header) <$> take k cols)
             ++ drop k cols, Raise e)
      end) as Heq.
  { rewrite ResolverFacts.parse_columns_effective.
    apply ResolverFacts.parse_columns_spec, ResolverFacts.effective_nonempty. }
  split; [done|]. split; [done|]. split; [|done].
  rewrite Heq. destruct (Resolver.first_offence _ _) as [[k e]|]; simpl.
  - rewrite length_app, length_fmap, length_take, length_drop. lia.
  - by rewrite length_fmap.
Qed.

(** C8.  Idempotence asks that a file already sorted on the key columns
    comes out unchanged.  The code breaks it: an input that is sorted on
    column 1 and is split into two chunks comes out in another order,
    because the chunks are merged on whole rows. *)
Theorem csvsort_sorted_input_reordered :
  let a := Args "in.csv" [CInt 1%Z] "out.csv" 0 true in
  let st := one_file "in.csv" [["k"; "v"]; ["b"; "1"]; ["a"; "2"]] in
  Sorted (rows_in_order [CInt 1%Z]) [["b"; "1"]; ["a"; "2"]] ∧
  (csvsort cpython_getsizeof a st).2 = Ok () ∧
  files (csvsort cpython_getsizeof a st).1 !! Outside "out.csv"
    = Some [["k"; "v"]; ["a"; "2"]; ["b"; "1"]].
Proof.
  split; [|split; by vm_compute].
  repeat constructor. by exists ["1"], ["2"].
Qed.

(** C9.  Cleanup.  Every run of [csvsort] ends, normally or with an
    exception, and when it ends the workspace directory and every chunk
    and merge file are gone; [rmtree] is the last thing done. *)
Theorem csvsort_cleanup getsizeof a st :
  (csvsort getsizeof a st).2 ≠ Diverge ∧
  tmp_dir_exists (csvsort getsizeof a st).1 = false ∧
  (∀ n, files (csvsort getsizeof a st).1 !! Split n = None) ∧
  (∀ n, files (csvsort getsizeof a st).1 !! Merge n = None) ∧
  last (trace (csvsort getsizeof a st).1) = Some EvRmtree.
Proof.
  unfold csvsort.
  destruct (try_finally_rmtree (csvsort_try getsizeof a) (makedirs st))
    as (Hdir & Hfiles & Hlast).
  split; [|split; [done|split; [|split; [|done]]]].
  - rewrite try_finally_outcome. apply halts_csvsort_try.
  - intros n. by apply Hfiles.
  - intros n. by apply Hfiles.
Qed.

(** ** Negative indices *)

Lemma field_from_end_is_Some (r : row) z :
  (z < 0)%Z →
  is_Some (field_from_end r z) ↔ (- Z.of_nat (length r) ≤ z)%Z.
Proof.
  intros Hz. unfold field_from_end.
  rewrite lookup_lt_is_Some, length_reverse. lia.
Qed.

Lemma sort_key_from_end zs r :
  Forall (λ z, (z < 0)%Z) zs →
  sort_key (CInt <$> zs) r
  = match mapM (field_from_end r) zs with
    | Some key => Ok key
    | None => Raise IndexError
    end.
Proof.
  induction 1 as [|z zs Hz _ IH]; [done|].
  csimpl. rewrite IH, py_getitem_negative by done.
  change (reverse r !! Z.to_nat (- z - 1)) with (field_from_end r z).
  destruct (field_from_end r z); [|done]. csimpl.
  by destruct (mapM (field_from_end r) zs).
Qed.

Lemma sort_key_from_end_is_ok zs r :
  Forall (λ z, (z < 0)%Z) zs →
  is_ok (sort_key (CInt <$> zs) r) = true ↔
  Forall (λ z, (- Z.of_nat (length r) ≤ z)%Z) zs.
Proof.
  intros Hz. rewrite sort_key_from_end by done.
  transitivity (is_Some (mapM (field_from_end r) zs)).
  { destruct (mapM _ zs); simpl; split; (done || by intros [??]). }
  rewrite mapM_is_Some, !Forall_forall.
  split; intros H z Hin.
  - apply field_from_end_is_Some; [by apply (proj1 (Forall_forall _ _) Hz)|].
    by apply H.
  - apply field_from_end_is_Some; [by apply (proj1 (Forall_forall _ _) Hz)|].
    by apply H.
Qed.

Lemma decorate_raise_elem cols rows e :
  decorate cols rows = Raise e → ∃ r, r ∈ rows ∧ sort_key cols r = Raise e.
Proof.
  induction rows as [|r rows IH]; simpl; [done|].
  destruct (sort_key cols r) as [k|e'|] eqn:Hk.
  - destruct (decorate cols rows) as [d|e'|]; [done| |done].
    intros [= ->]. destruct IH as (r' & Hin & Hr'); [done|].
    exists r'. split; [by right|done].
  - intros [= ->]. exists r. split; [by left|done].
  - done.
Qed.

(** C10.  Negative integer specifiers pass [parse_columns] unchanged for
    every header: a list of them is returned as it is, and in any list no
    exception is raised on one of them and a returned list holds them where
    they were.  The sort that follows takes as key of a row the fields
    counted from its end: when every row has the fields it returns the rows
    in ascending order of these keys, and it raises [IndexError] when a row
    is too short. *)
Theorem negative_index_counts_from_end header (zs : list Z) :
  Forall (λ z, (z < 0)%Z) zs →
  parse_columns (CInt <$> zs) header = (CInt <$> zs, Ok (CInt <$> zs)) ∧
  (∀ cols z, z ∈ zs →
     (∀ msg, (parse_columns cols header).2
             ≠ Raise (CsvSortError msg (CInt z))) ∧
     (∀ cols' i, (parse_columns cols header).2 = Ok cols' →
                 cols !! i = Some (CInt z) → cols' !! i = Some (CInt z))) ∧
  (∀ r, sort_key (CInt <$> zs) r
        = match mapM (field_from_end r) zs with
          | Some key => Ok key
          | None => Raise IndexError
          end) ∧
  (∀ rows,
     Forall (λ r, Forall (λ z, (- Z.of_nat (length r) ≤ z)%Z) zs) rows →
     ∃ out, list_sort (CInt <$> zs) rows = Ok out ∧
       out ≡ₚ rows ∧
       Sorted (λ a b, ∃ ka kb, mapM (field_from_end a) zs = Some ka ∧
                               mapM (field_from_end b) zs = Some kb ∧
                               row_le ka kb = true) out) ∧
  (∀ rows,
     Exists (λ r, Exists (λ z, (z < - Z.of_nat (length r))%Z) zs) rows →
     list_sort (CInt <$> zs) rows = Raise IndexError).
Proof.
  intros Hz.
  pose proof (ResolverFacts.effective_nonempty header) as Hh.
  split; [|split; [|split; [|split]]].
  - rewrite ResolverFacts.parse_columns_effective.
    rewrite (ResolverFacts.parse_columns_spec _ _ Hh).
    assert (Resolver.first_offence (Resolver.effective header) (CInt <$> zs)
            = None) as ->.
    { apply ResolverFacts.first_offence_None, Forall_fmap.
      eapply Forall_impl; [exact Hz|]. intros z Hz0. simpl in Hz0 |- *.
      destruct (Resolver.effective header) as [h|]; [|done].
      by rewrite (proj2 (Z.leb_gt _ _)) by lia. }
    by rewrite <- list_fmap_compose.
  - intros cols z Hin.
    assert (z < 0)%Z as Hz0 by by apply (proj1 (Forall_forall _ _) Hz).
    rewrite ResolverFacts.parse_columns_effective.
    rewrite (ResolverFacts.parse_columns_spec _ _ Hh).
    split.
    + intros msg.
      destruct (Resolver.first_offence _ cols) as [[k e]|] eqn:Hf; [|done].
      simpl. intros [= ->].
      apply ResolverFacts.first_offence_Some in Hf as (c & _ & Hoff & _).
      destruct c as [z'|s]; simpl in Hoff;
        destruct (Resolver.effective header) as [h|]; try done.
      * destruct (Z.leb (Z.of_nat (length h)) z') eqn:Hle; [|done].
        apply Z.leb_le in Hle. injection Hoff as _ ->. lia.
      * by destruct (py_in s h).
    + intros cols' i.
      destruct (Resolver.first_offence _ cols) as [[k e]|]; [done|].
      simpl. intros [= <-] Hi. by rewrite list_lookup_fmap, Hi.
  - intros r. by apply sort_key_from_end.
  - intros rows Hrows.
    assert (is_ok (list_sort (CInt <$> zs) rows) = true) as Hok.
    { apply list_sort_ok. eapply Forall_impl; [exact Hrows|].
      intros r Hr. by apply sort_key_from_end_is_ok. }
    destruct (list_sort (CInt <$> zs) rows) as [out| |] eqn:Hsort; [|done..].
    exists out. split; [done|]. split; [by eapply list_sort_perm|].
    apply list_sort_sorted in Hsort.
    eapply Sorted_weaken; [|exact Hsort].
    intros a b (ka & kb & Ha & Hb & Hle).
    rewrite sort_key_from_end in Ha, Hb by done.
    destruct (mapM (field_from_end a) zs) as [ka'|]; [|done].
    destruct (mapM (field_from_end b) zs) as [kb'|]; [|done].
    injection Ha as <-. injection Hb as <-. by exists ka', kb'.
  - intros rows (r & Hin & (z & Hzin & Hshort)%Exists_exists)%Exists_exists.
    destruct (list_sort (CInt <$> zs) rows) as [out|e|] eqn:Hsort.
    + assert (is_ok (list_sort (CInt <$> zs) rows) = true) as Hok
        by by rewrite Hsort.
      apply list_sort_ok in Hok.
      pose proof (proj1 (Forall_forall _ _) Hok r Hin) as Hr. simpl in Hr.
      apply sort_key_from_end_is_ok in Hr; [|done].
      pose proof (proj1 (Forall_forall _ _) Hr z Hzin) as Hlen.
      simpl in Hlen. lia.
    + unfold list_sort in Hsort.
      destruct (decorate (CInt <$> zs) rows) as [d|e'|] eqn:Hd; [done| |done].
      injection Hsort as ->.
      apply decorate_raise_elem in Hd as (r' & _ & Hr').
      rewrite sort_key_from_end in Hr' by done.
      destruct (mapM (field_from_end r') zs); congruence.
    + by destruct (list_sort_not_diverge (CInt <$> zs) rows).
Qed.

Lemma negative_index_counts_from_end_witness :
  let zs := [(-1)%Z; (-2)%Z] in
  let rows := [["b"; "x"; "2"]; ["a"; "y"; "1"]; ["c"; "x"; "1"]] in
  Forall (λ z, (z < 0)%Z) zs ∧
  parse_columns (CInt <$> zs) (Some ["k"; "v"])
    = (CInt <$> zs, Ok (CInt <$> zs)) ∧
  Forall (λ r, Forall (λ z, (- Z.of_nat (length r) ≤ z)%Z) zs) rows ∧
  ∃ out, list_sort (CInt <$> zs) rows = Ok out ∧
    out ≡ₚ rows ∧
    Sorted (λ a b, ∃ ka kb, mapM (field_from_end a) zs = Some ka ∧
                            mapM (field_from_end b) zs = Some kb ∧
                            row_le ka kb = true) out.
Proof.
  intros zs rows.
  assert (Forall (λ z, (z < 0)%Z) zs) as Hz.
  { repeat constructor. }
  assert (Forall (λ r, Forall (λ z, (- Z.of_nat (length r) ≤ z)%Z) zs) rows)
    as Hrows.
  { repeat constructor; discriminate. }
  destruct (negative_index_counts_from_end (Some ["k"; "v"]) zs Hz)
    as (Hparse & _ & _ & Hsort & _).
  split; [exact Hz|]. split; [exact Hparse|]. split; [exact Hrows|].
  exact (Hsort rows Hrows).
Defined.

(** * Further properties *)

Local Close Scope string_scope.

(** ** The order of rows is a total order *)

Lemma ascii_compare_lt_trans a b c :
  Ascii.compare a b = Lt → Ascii.compare b c = Lt → Ascii.compare a c = Lt.
Proof.
  unfold Ascii.compare. rewrite !N.compare_lt_iff. apply N.lt_trans.
Qed.

Lemma string_compare_lt_trans a : ∀ b c,
  String.compare a b = Lt → String.compare b c = Lt → String.compare a c = Lt.
Proof.
  induction a as [|x a IH]; intros [|y b] [|z c]; simpl; try done.
  destruct (Ascii.compare x y) eqn:Exy; [| |done].
  - apply Ascii.compare_eq_iff in Exy as ->.
    destruct (Ascii.compare y z); [apply IH|done..].
  - destruct (Ascii.compare y z) eqn:Eyz; [| |done].
    + apply Ascii.compare_eq_iff in Eyz as ->. by rewrite Exy.
    + by rewrite (ascii_compare_lt_trans _ _ _ Exy Eyz).
Qed.

Lemma row_compare_lt_trans a : ∀ b c,
  row_compare a b = Lt → row_compare b c = Lt → row_compare a c = Lt.
Proof.
  induction a as [|x a IH]; intros [|y b] [|z c]; simpl; try done.
  destruct (String.compare x y) eqn:Exy; [| |done].
  - apply String.compare_eq_iff in Exy as ->.
    destruct (String.compare y z); [apply IH|done..].
  - destruct (String.compare y z) eqn:Eyz; [| |done].
    + apply String.compare_eq_iff in Eyz as ->. by rewrite Exy.
    + by rewrite (string_compare_lt_trans _ _ _ Exy Eyz).
Qed.

Lemma row_lt_le_trans a b c :
  row_lt a b = true → row_lt c b = false → row_lt a c = true.
Proof.
  unfold row_lt. intros Hab Hcb.
  destruct (row_compare a b) eqn:Eab; [done| |done].
  rewrite (row_compare_antisym b c) in Hcb.
  destruct (row_compare b c) eqn:Ebc; simpl in Hcb; [| |done].
  - apply row_compare_eq in Ebc as <-. by rewrite Eab.
  - by rewrite (row_compare_lt_trans _ _ _ Eab Ebc).
Qed.

Lemma row_le_refl a : row_le a a = true.
Proof. by rewrite row_le_not_lt, row_lt_irrefl. Qed.

Lemma row_le_trans a b c :
  row_le a b = true → row_le b c = true → row_le a c = true.
Proof.
  rewrite !row_le_not_lt, !negb_true_iff. intros Hba Hcb.
  destruct (row_lt c a) eqn:E; [|done].
  by rewrite (row_lt_le_trans _ _ _ E Hba) in Hcb.
Qed.

Lemma row_le_total a b : row_le a b = true ∨ row_le b a = true.
Proof.
  rewrite !row_le_not_lt, !negb_true_iff.
  destruct (row_lt b a) eqn:E; [right; by apply row_lt_asym|by left].
Qed.

Lemma row_le_antisym a b : row_le a b = true → row_le b a = true → a = b.
Proof.
  unfold row_le. rewrite (row_compare_antisym a b).
  destruct (row_compare a b) eqn:E; simpl; try done.
  intros _ _. by apply row_compare_eq.
Qed.

(** ** heapq.merge on sorted streams *)

Lemma concat_nil_lookup (streams : list (list row)) s q rest :
  concat streams = [] → streams !! s = Some (q :: rest) → False.
Proof.
  revert s. induction streams as [|c streams IH]; intros s; [done|].
  simpl. intros [-> Hc]%app_eq_nil. destruct s as [|s]; simpl; [done|].
  by apply IH.
Qed.

(** The head that [heapq.merge] yields is not above any other head. *)
Lemma min_head_least i streams j p :
  min_head i streams = Some (j, p) →
  ∀ s q rest, streams !! s = Some (q :: rest) → row_lt q p = false.
Proof.
  revert i j p. induction streams as [|c streams IH]; intros i j p; [done|].
  simpl. destruct c as [|r c].
  - intros Hm [|s] q rest Hs; [done|]. by eapply IH.
  - destruct (min_head (S i) streams) as [[j' r']|] eqn:E.
    + destruct (row_lt r' r) eqn:Hlt; intros [= <- <-].
      * intros [|s] q rest Hs; simpl in Hs.
        -- injection Hs as <- <-. by apply row_lt_asym.
        -- by eapply IH.
      * intros [|s] q rest Hs; simpl in Hs.
        -- injection Hs as <- <-. apply row_lt_irrefl.
        -- destruct (row_lt q r) eqn:Hq; [|done].
           pose proof (IH _ _ _ E s q rest Hs) as Hq'.
           by rewrite (row_lt_le_trans _ _ _ Hq Hlt) in Hq'.
    + intros [= <- <-] [|s] q rest Hs; simpl in Hs.
      * injection Hs as <- <-. apply row_lt_irrefl.
      * exfalso. apply min_head_None in E.
        by eapply concat_nil_lookup.
Qed.

Section MergeSorted.

(** [K] is an order on rows that the order of whole rows refines, on the
    rows that satisfy [P]. *)
Variable K : row → row → Prop.
Variable P : row → Prop.
Hypothesis row_le_K : ∀ a b, P a → P b → row_lt b a = false → K a b.

Lemma heapq_merge_fuel_hd fuel streams x :
  (∀ s q rest, streams !! s = Some (q :: rest) → K x q) →
  HdRel K x (heapq_merge_fuel fuel streams).
Proof.
  intros Hx. destruct fuel as [|fuel]; simpl; [constructor|].
  destruct (min_head 0 streams) as [[i r]|] eqn:E; [|constructor].
  apply min_head_Some in E as (k & rest & _ & Hk). constructor. by eapply Hx.
Qed.

Lemma heapq_merge_fuel_sorted fuel : ∀ streams,
  Forall (Sorted K) streams → Forall (Forall P) streams →
  Sorted K (heapq_merge_fuel fuel streams).
Proof.
  induction fuel as [|fuel IH]; intros streams Hs HP; simpl; [constructor|].
  destruct (min_head 0 streams) as [[i r]|] eqn:E; [|constructor].
  pose proof (min_head_least _ _ _ _ E) as Hleast.
  apply min_head_Some in E as (k & rest & -> & Hk). simpl.
  assert (Sorted K (r :: rest) ∧ Forall P (r :: rest)) as [Hsk HPk].
  { split; [eapply (Forall_lookup_1 _ _ _ _ Hs Hk)
           |eapply (Forall_lookup_1 _ _ _ _ HP Hk)]. }
  apply Sorted_inv in Hsk as [Hsrest Hhd].
  apply Forall_cons in HPk as [HPr HPrest].
  constructor.
  - apply IH.
    + apply Forall_alter; [done|]. intros c Hc. simplify_eq. done.
    + apply Forall_alter; [done|]. intros c Hc. simplify_eq. done.
  - apply heapq_merge_fuel_hd. intros s q rest' Hs'.
    destruct (decide (s = k)) as [->|Hne].
    + rewrite list_lookup_alter_eq, Hk in Hs'. simpl in Hs'.
      injection Hs' as Hs'. rewrite drop_0 in Hs'. subst rest.
      by apply HdRel_inv in Hhd.
    + rewrite list_lookup_alter_ne in Hs' by done.
      apply row_le_K; [done| |by eapply Hleast].
      pose proof (Forall_lookup_1 _ _ _ _ HP Hs') as HPq.
      by apply Forall_cons in HPq as [? _].
Qed.

Lemma heapq_merge_sorted streams :
  Forall (Sorted K) streams → Forall (Forall P) streams →
  Sorted K (heapq_merge streams).
Proof. apply heapq_merge_fuel_sorted. Qed.

Lemma heapq_merge_Forall streams :
  Forall (Forall P) streams → Forall P (heapq_merge streams).
Proof.
  intros HP. rewrite heapq_merge_perm. by apply Forall_concat.
Qed.

Lemma merge_passes_sorted nway fuel : ∀ cs,
  Forall (Sorted K) cs → Forall (Forall P) cs →
  Sorted K (merge_passes fuel nway cs) ∧ Forall P (merge_passes fuel nway cs).
Proof.
  induction fuel as [|fuel IH]; intros cs Hs HP; simpl.
  - destruct (1 <? length cs)%nat; [by split; constructor|].
    destruct cs as [|c cs]; [by split; constructor|].
    split; [by inversion Hs|by inversion HP].
  - destruct (1 <? length cs)%nat.
    + apply IH.
      * apply Forall_app. split; [by apply Forall_drop|].
        repeat constructor.
        apply heapq_merge_sorted; by apply Forall_take.
      * apply Forall_app. split; [by apply Forall_drop|].
        repeat constructor. apply heapq_merge_Forall. by apply Forall_take.
    + destruct cs as [|c cs]; [by split; constructor|].
      split; [by inversion Hs|by inversion HP].
Qed.

End MergeSorted.

(** ** The chunks of csvsplit *)

Lemma open_chunk_nonempty cur : cur ≠ [] → open_chunk cur = [cur].
Proof. by destruct cur. Qed.

Lemma chunk_loop_nonempty getsizeof max_size reader : ∀ cur size,
  cur ≠ [] → chunk_loop getsizeof max_size reader cur size ≠ [].
Proof.
  induction reader as [|r reader IH]; intros cur size Hcur; simpl.
  - by rewrite open_chunk_nonempty.
  - destruct (Z.ltb _ _); [done|]. apply IH. by destruct cur.
Qed.

Lemma chunk_loop_concat getsizeof max_size reader : ∀ cur size,
  concat (chunk_loop getsizeof max_size reader cur size) = cur ++ reader.
Proof.
  induction reader as [|r reader IH]; intros cur size; simpl.
  - destruct cur; simpl; by rewrite ?app_nil_r.
  - destruct (Z.ltb _ _); simpl; rewrite IH; by rewrite <- app_assoc.
Qed.


Section SplitExact.

Variable getsizeof : row → Z.

Lemma returns_csvsplit_loop_exact max_size reader : ∀ writer size done cur st,
  stored (files st) (chunk_names (length (done ++ open_chunk cur)))
    (done ++ open_chunk cur) →
  (cur = [] ∧ writer = None) ∨
  (cur ≠ [] ∧ writer = Some (Split (length done))) →
  returns (csvsplit_loop getsizeof max_size reader writer size
             (chunk_names (length (done ++ open_chunk cur)))) st
    (λ names st',
       names = chunk_names
                 (length (done ++ chunk_loop getsizeof max_size reader cur size)) ∧
       stored (files st') names
         (done ++ chunk_loop getsizeof max_size reader cur size) ∧
       (∀ g, g ∉ names → files st' !! g = files st !! g)).
Proof.
  induction reader as [|r reader IH]; intros writer size done cur st Hs Hw.
  { by apply returns_ret. }
  cbn [csvsplit_loop chunk_loop].
  destruct Hw as [[-> ->]|[Hcur ->]].
  - simpl in Hs |- *. rewrite app_nil_r in Hs |- *.
    rewrite length_chunk_names.
    step_with ltac:(apply returns_open_w).
    intros ? st1 Hst1. simpl in Hst1.
    step_with ltac:(apply (returns_writerow _ _ _ [])).
    2:{ rewrite Hst1. apply lookup_insert_eq. }
    intros ? st2 Hst2. simpl in Hst2.
    rewrite Hst1, insert_insert_eq in Hst2.
    assert (Split (length done) ∉ chunk_names (length done)) as Hfresh.
    { rewrite elem_of_chunk_names. intros (i & [= <-] & ?). lia. }
    assert (stored (files st2) (chunk_names (length (done ++ [[r]])))
              (done ++ [[r]])) as Hs2.
    { rewrite length_app, Nat.add_1_r, chunk_names_S.
      apply Forall2_app.
      - rewrite Hst2. by apply stored_insert_fresh.
      - repeat constructor. rewrite Hst2. apply lookup_insert_eq. }
    assert (chunk_names (length done) ++ [Split (length done)]
            = chunk_names (length (done ++ [[r]]))) as Hnames.
    { by rewrite length_app, Nat.add_1_r, chunk_names_S. }
    rewrite Hnames.
    destruct (Z.ltb _ _).
    + pose proof (IH None 0%Z (done ++ [[r]]) [] st2) as IH1.
      simpl in IH1. rewrite app_nil_r in IH1.
      rewrite <- !app_assoc in IH1. simpl in IH1.
      eapply returns_weaken; [|apply IH1; [done|by left]].
      simpl. intros names st' (-> & Hst' & Hfr).
      split; [done|]. split; [done|].
      intros g Hg. rewrite Hfr by done. rewrite Hst2.
      apply lookup_insert_ne. intros <-. apply Hg.
      apply elem_of_chunk_names. exists (length done). split; [done|].
      rewrite length_app. simpl. lia.
    + eapply returns_weaken;
        [|apply (IH (Some (Split (length done))) (size + getsizeof r)%Z
                    done [r] st2); [done|by right]].
      simpl. intros names st' (-> & Hst' & Hfr).
      split; [done|]. split; [done|].
      intros g Hg. rewrite Hfr by done. rewrite Hst2.
      apply lookup_insert_ne. intros <-. apply Hg.
      apply elem_of_chunk_names. exists (length done). split; [done|].
      rewrite length_app.
      pose proof (chunk_loop_nonempty getsizeof max_size reader [r]
                    (size + getsizeof r)%Z) as Hne.
      destruct (chunk_loop _ _ _ _ _); [by destruct Hne|]. simpl. lia.
  - rewrite (open_chunk_nonempty _ Hcur) in Hs |- *.
    assert (files st !! Split (length done) = Some cur) as Hc0.
    { rewrite length_app, Nat.add_1_r, chunk_names_S in Hs.
      apply Forall2_app_inv in Hs as [_ Hs].
      - by inversion Hs.
      - by rewrite length_chunk_names. }
    apply returns_bind. apply returns_ret.
    step_with ltac:(by apply returns_writerow).
    intros ? st2 Hst2. simpl in Hst2.
    assert (length (done ++ [cur]) = length (done ++ [cur ++ [r]])) as Hlen'.
    { by rewrite !length_app. }
    assert (stored (files st2) (chunk_names (length (done ++ [cur ++ [r]])))
              (done ++ [cur ++ [r]])) as Hs2.
    { rewrite length_app, Nat.add_1_r, chunk_names_S in Hs |- *.
      apply Forall2_app_inv in Hs as [Hs _]; [|by rewrite length_chunk_names].
      apply Forall2_app.
      - rewrite Hst2. apply stored_insert_fresh; [|done].
        rewrite elem_of_chunk_names. intros (i & [= <-] & ?). lia.
      - repeat constructor. rewrite Hst2. apply lookup_insert_eq. }
    assert (cur ++ [r] ≠ []) as Hcur' by by destruct cur.
    rewrite Hlen'.
    destruct (Z.ltb _ _).
    + pose proof (IH None 0%Z (done ++ [cur ++ [r]]) [] st2) as IH1.
      simpl in IH1. rewrite app_nil_r in IH1.
      rewrite <- !(app_assoc done) in IH1. simpl in IH1.
      eapply returns_weaken;
        [|apply IH1; [done|by left]].
      simpl. intros names st' (-> & Hst' & Hfr).
      split; [done|]. split; [done|].
      intros g Hg. rewrite Hfr by done. rewrite Hst2.
      apply lookup_insert_ne. intros <-. apply Hg.
      apply elem_of_chunk_names. exists (length done). split; [done|].
      rewrite length_app. simpl. lia.
    + pose proof (IH (Some (Split (length done))) (size + getsizeof r)%Z
                    done (cur ++ [r]) st2) as IH1.
      rewrite (open_chunk_nonempty _ Hcur') in IH1.
      eapply returns_weaken; [|apply IH1; [done|by right]].
      intros names st' (-> & Hst' & Hfr).
      split; [done|]. split; [done|].
      intros g Hg. rewrite Hfr by done. rewrite Hst2.
      apply lookup_insert_ne. intros <-. apply Hg.
      apply elem_of_chunk_names. exists (length done). split; [done|].
      rewrite length_app.
      pose proof (chunk_loop_nonempty getsizeof max_size reader (cur ++ [r])
                    (size + getsizeof r)%Z Hcur') as Hne.
      destruct (chunk_loop _ _ _ _ _); [done|]. simpl. lia.
Qed.

Lemma returns_csvsplit_exact reader max_size st :
  returns (csvsplit getsizeof reader max_size) st
    (λ names st',
       names = chunk_names (length (chunks getsizeof reader max_size)) ∧
       stored (files st') names (chunks getsizeof reader max_size) ∧
       (∀ g, g ∉ names → files st' !! g = files st !! g)).
Proof.
  unfold csvsplit, chunks.
  apply (returns_csvsplit_loop_exact _ reader None 0%Z [] [] st);
    [constructor|by left].
Qed.

End SplitExact.

(** ** The loop over memorysort and the passes of mergesort *)

Lemma sort_all_ok cols cs cs' :
  sort_all cols cs = Ok cs' → Forall2 (λ c c', list_sort cols c = Ok c') cs cs'.
Proof.
  revert cs'. induction cs as [|c cs IH]; intros cs'; simpl.
  { intros [= <-]. constructor. }
  destruct (list_sort cols c) as [c'| |] eqn:Ec; [|done..].
  destruct (sort_all cols cs) as [r| |]; [|done..].
  intros [= <-]. constructor; [done|]. by apply IH.
Qed.

Lemma sort_all_not_diverge cols cs : sort_all cols cs ≠ Diverge.
Proof.
  induction cs as [|c cs IH]; simpl; [done|].
  pose proof (list_sort_not_diverge cols c).
  destruct (list_sort cols c); [|done..]. by destruct (sort_all cols cs).
Qed.

(** The loop of [csvsort] over the chunk files: every chunk is sorted, or
    the loop ends with the exception of the first chunk that cannot be;
    nothing but the chunk files is written. *)
Lemma for_each_memorysort_exact cols names cs st :
  NoDup names → stored (files st) names cs →
  match sort_all cols cs with
  | Ok cs' =>
      returns (for_each (λ f, memorysort f cols) names) st
        (λ _ st', stored (files st') names cs' ∧
                  ∀ g, g ∉ names → files st' !! g = files st !! g)
  | Raise e =>
      ∃ st', for_each (λ f, memorysort f cols) names st = (st', Raise e) ∧
             ∀ g, g ∉ names → files st' !! g = files st !! g
  | Diverge => False
  end.
Proof.
  intros Hnd Hs. revert st Hs.
  induction cs as [|c cs IH] in names, Hnd |- *; intros st Hs.
  { apply Forall2_nil_inv_r in Hs as ->. apply returns_ret.
    split; [constructor|done]. }
  apply Forall2_cons_inv_r in Hs as (f & names' & Hf & Hs & ->).
  apply NoDup_cons in Hnd as [Hf' Hnd]. cbn [sort_all for_each].
  pose proof (list_sort_not_diverge cols c) as Hnd'.
  destruct (list_sort cols c) as [c'|e|] eqn:Ec; [| |done].
  - destruct (returns_memorysort f cols st c c' Hf Ec)
      as (st1 & [] & Hm & Hst1).
    assert (stored (files st1) names' cs) as Hs1.
    { rewrite Hst1. by apply stored_insert_fresh. }
    specialize (IH names' Hnd st1 Hs1).
    destruct (sort_all cols cs) as [r|e|]; [| |done].
    + apply returns_bind. exists st1, (). split; [done|].
      eapply returns_weaken; [|exact IH].
      intros ? st2 [Hs2 Hfr]. split.
      * constructor; [|done]. rewrite Hfr, Hst1 by done.
        apply lookup_insert_eq.
      * intros g [Hgf Hg]%not_elem_of_cons.
        rewrite Hfr, Hst1 by done. by apply lookup_insert_ne.
    + destruct IH as (st2 & Hr & Hfr). exists st2. split.
      * by rewrite (bind_ok _ _ _ _ _ Hm).
      * intros g [Hgf Hg]%not_elem_of_cons.
        rewrite Hfr, Hst1 by done. by apply lookup_insert_ne.
  - exists st. split; [|done].
    apply bind_raise. unfold memorysort.
    rewrite (bind_ok _ _ st st c); [|unfold read_rows; by rewrite Hf].
    apply bind_raise. unfold lift. by rewrite Ec.
Qed.

Lemma returns_for_each_os_remove_exact names cs st :
  NoDup names → stored (files st) names cs →
  returns (for_each os_remove names) st
    (λ _ st', (∀ g, g ∈ names → files st' !! g = None) ∧
              (∀ g, g ∉ names → files st' !! g = files st !! g)).
Proof.
  intros Hnd Hs. revert st Hs.
  induction cs as [|c cs IH] in names, Hnd |- *; intros st Hs.
  { apply Forall2_nil_inv_r in Hs as ->. apply returns_ret.
    split; [by intros g Hg%elem_of_nil|done]. }
  apply Forall2_cons_inv_r in Hs as (f & names' & Hf & Hs & ->).
  apply NoDup_cons in Hnd as [Hf' Hnd]. simpl.
  step_with ltac:(by eapply returns_os_remove).
  intros ? st' Hst'. simpl in Hst'.
  eapply returns_weaken; [|apply (IH names' Hnd)].
  - intros ? st'' [Hdel Hfr]. split.
    + intros g [->|Hg]%elem_of_cons; [|by apply Hdel].
      rewrite Hfr by done. rewrite Hst'. apply lookup_delete_eq.
    + intros g [Hgf Hg]%not_elem_of_cons.
      rewrite Hfr by done. rewrite Hst'. by apply lookup_delete_ne.
  - eapply stored_ext; [|done]. intros g Hg. rewrite Hst'.
    apply lookup_delete_ne. by intros ->.
Qed.

Lemma merge_passes_unfold fuel nway cs :
  merge_passes fuel nway cs
  = if (1 <? length cs)%nat then
      match fuel with
      | O => []
      | S fuel' =>
          merge_passes fuel' nway (drop nway cs ++ [heapq_merge (take nway cs)])
      end
    else match cs with c :: _ => c | [] => [] end.
Proof. by destruct fuel. Qed.

(** The passes of [mergesort] end with one file in the workspace that holds
    [merge_passes]; the files given to it are gone, and no file is touched
    but these and the merge files. *)
Lemma returns_mergesort_loop_exact cols nway : ∀ fuel merge_n names cs st,
  2 ≤ nway →
  length names ≤ fuel →
  names ≠ [] →
  NoDup names →
  Forall (λ f, in_workspace f = true) names →
  (∀ j, merge_n ≤ j → Merge j ∉ names) →
  stored (files st) names cs →
  returns (mergesort_loop fuel cols nway merge_n names) st
    (λ f st',
       in_workspace f = true ∧
       files st' !! f = Some (merge_passes fuel nway cs) ∧
       (∀ g, g ∈ names → g ≠ f → files st' !! g = None) ∧
       (∀ g, g ∉ names → (∀ j, merge_n ≤ j → g ≠ Merge j) →
             files st' !! g = files st !! g)).
Proof.
  induction fuel as [|fuel IH];
    intros merge_n names cs st Hn Hfuel Hne Hnd Hws Hfresh Hs.
  { destruct names; [done|simpl in Hfuel; lia]. }
  rewrite mergesort_loop_unfold, merge_passes_unfold.
  pose proof (stored_length _ _ _ Hs) as Hlcs. rewrite <- Hlcs.
  destruct (1 <? length names)%nat eqn:Hlen.
  2:{ apply Nat.ltb_ge in Hlen.
      destruct names as [|f [|??]]; [done| |simpl in Hlen; lia].
      apply Forall2_cons_inv_l in Hs as (c & cs' & Hf & Hs & ->).
      apply Forall2_nil_inv_l in Hs as ->.
      apply returns_ret. split; [by inversion Hws|]. split; [done|].
      split; [|done]. by intros g ->%list_elem_of_singleton. }
  apply Nat.ltb_lt in Hlen.
  assert (Merge merge_n ∉ names) as Hm by by apply Hfresh.
  step_with ltac:(apply returns_open_w).
  intros ? st1 Hst1. simpl in Hst1.
  assert (stored (files st1) names cs) as Hs1.
  { rewrite Hst1. by apply stored_insert_fresh. }
  apply returns_bind.
  eapply returns_weaken;
    [|apply (returns_map_m_read_rows _ (take nway cs)); by apply Forall2_take].
  intros ? ? [-> ->].
  step_with ltac:(apply (returns_writerows _ _ _ [])).
  2:{ rewrite Hst1. apply lookup_insert_eq. }
  intros ? st2 Hst2. simpl in Hst2. rewrite Hst1, insert_insert_eq in Hst2.
  assert (stored (files st2) names cs) as Hs2.
  { rewrite Hst2. by apply stored_insert_fresh. }
  pose proof Hnd as Hnd0.
  rewrite <- (take_drop nway names) in Hnd.
  apply NoDup_app in Hnd as (Hnd1 & Hdisj & Hnd2).
  apply returns_bind.
  eapply returns_weaken;
    [|apply (returns_for_each_os_remove_exact _ (take nway cs));
      [done|by apply Forall2_take]].
  intros ? st3 [Hdel3 Hfr3]. simpl in Hdel3, Hfr3.
  assert (Merge merge_n ∉ take nway names) as Hm1.
  { intros H. apply Hm. by apply (subseteq_take nway names). }
  assert (Merge merge_n ∉ drop nway names) as Hm2.
  { intros H. apply Hm. by apply (subseteq_drop nway names). }
  eapply returns_weaken;
    [|apply (IH (S merge_n) _ (drop nway cs ++ [heapq_merge (take nway cs)]));
      [done| | | | | |]].
  - intros f st' (Hf & Hout & Hdel & Hfr).
    split; [done|]. split; [done|]. split.
    + intros g Hg Hgf.
      rewrite <- (take_drop nway names) in Hg.
      apply elem_of_app in Hg as [Hg|Hg].
      * rewrite Hfr; [by apply Hdel3| |].
        -- intros [Hg'|Hg'%list_elem_of_singleton]%elem_of_app.
           ++ by apply (Hdisj g).
           ++ by subst g.
        -- intros j Hj ->. apply (Hfresh j); [lia|].
           by apply (subseteq_take nway names).
      * apply Hdel; [|done]. apply elem_of_app. by left.
    + intros g Hg Hgm. rewrite Hfr.
      * rewrite Hfr3.
        -- rewrite Hst2. apply lookup_insert_ne. intros <-.
           by apply (Hgm merge_n).
        -- intros Hg'. apply Hg. by apply (subseteq_take nway names).
      * intros [Hg'|Hg'%list_elem_of_singleton]%elem_of_app.
        -- apply Hg. by apply (subseteq_drop nway names).
        -- subst g. by apply (Hgm merge_n).
      * intros j Hj. apply Hgm. lia.
  - rewrite length_app, length_drop. simpl. lia.
  - by destruct (drop nway names).
  - apply NoDup_app. split; [done|]. split; [|apply NoDup_singleton].
    intros g Hg ->%list_elem_of_singleton. done.
  - apply Forall_app. split; [|by repeat constructor].
    by apply Forall_drop.
  - intros j Hj [Hg|Hg%list_elem_of_singleton]%elem_of_app.
    + apply (Hfresh j); [lia|]. by apply (subseteq_drop nway names).
    + injection Hg as ->. lia.
  - apply Forall2_app.
    + eapply stored_ext; [|by apply Forall2_drop].
      intros g Hg. rewrite Hfr3; [done|]. intros Hg'. by apply (Hdisj g).
    + repeat constructor. rewrite Hfr3 by done. rewrite Hst2.
      apply lookup_insert_eq.
Qed.

(** ** csvsort as a function of its input *)

Lemma not_elem_of_chunk_names_outside s n : Outside s ∉ chunk_names n.
Proof. by intros (i & [=] & _)%elem_of_chunk_names. Qed.

Section Exact.

Variable getsizeof : row → Z.

Lemma csvsort_try_exact a st input cols :
  files st !! Outside (input_filename a) = Some input →
  (has_header a = true → input ≠ []) →
  (parse_columns (columns a) (header_of a input)).2 = Ok cols →
  match pipeline_rows getsizeof cols (max_size a) (data_of a input) with
  | Ok out =>
      ∃ st', csvsort_try getsizeof a st = (st', Ok ()) ∧
        files st' !! destination a
          = Some (written_header (header_of a input) ++ out) ∧
        ∀ s, Outside s ≠ destination a →
             files st' !! Outside s = files st !! Outside s
  | Raise e =>
      ∃ st', csvsort_try getsizeof a st = (st', Raise e) ∧
        ∀ s, files st' !! Outside s = files st !! Outside s
  | Diverge => False
  end.
Proof.
  intros Hin Hhd Hp. unfold csvsort_try.
  erewrite bind_ok; [|unfold read_rows; by rewrite Hin].
  erewrite (bind_ok _ _ _ st (header_of a input, data_of a input)).
  2:{ unfold header_of, data_of. destruct (has_header a); [|done].
      destruct input; [by destruct Hhd|done]. }
  cbn [fst snd]. erewrite bind_ok; [|unfold lift; by rewrite Hp].
  destruct (returns_csvsplit_exact getsizeof (data_of a input) (max_size a) st)
    as (st1 & names & Hsp & -> & Hs1 & Hfr1).
  erewrite bind_ok by exact Hsp.
  pose proof (for_each_memorysort_exact cols _ _ st1
                (NoDup_chunk_names _) Hs1) as Hfe.
  unfold pipeline_rows.
  destruct (sort_all cols (chunks getsizeof (data_of a input) (max_size a)))
    as [cs'|e|] eqn:Esa; [| |done].
  2:{ destruct Hfe as (st2 & Hr & Hfr2). exists st2.
      erewrite bind_raise by exact Hr. split; [done|].
      intros s. rewrite Hfr2, Hfr1; [done|..];
        apply not_elem_of_chunk_names_outside. }
  destruct Hfe as (st2 & [] & Hr & Hs2 & Hfr2).
  erewrite bind_ok by exact Hr.
  pose proof (stored_length _ _ _ Hs2) as Hlen.
  assert (∀ s, files st2 !! Outside s = files st !! Outside s) as Hout2.
  { intros s. rewrite Hfr2, Hfr1; [done|..];
      apply not_elem_of_chunk_names_outside. }
  destruct cs' as [|c' cs''].
  { apply Forall2_nil_inv_r in Hs2. rewrite Hs2. by exists st2. }
  set (names := chunk_names (length (chunks getsizeof (data_of a input)
                                       (max_size a)))) in *.
  destruct (returns_mergesort_loop_exact cols 2 (length names) 0 names
              (c' :: cs'') st2) as (st3 & f & Hm & Hf & Hout & _ & Hfr3);
    [lia|done| |apply NoDup_chunk_names| | |done|].
  { intros Hnil. rewrite Hnil in Hlen. done. }
  { apply Forall_forall. intros g (i & -> & _)%elem_of_chunk_names. done. }
  { intros j _ (i & [=] & _)%elem_of_chunk_names. }
  unfold mergesort. erewrite bind_ok by exact Hm.
  rewrite Hlen in Hout.
  assert (∀ s, files st3 !! Outside s = files st !! Outside s) as Hout3.
  { intros s. rewrite Hfr3, Hout2; [done| |done].
    apply not_elem_of_chunk_names_outside. }
  assert (f ≠ destination a) as Hfd by (by intros ->).
  cut (returns
         (open_w (destination a);;;
          (if truthy (header_of a input)
           then writerow (destination a) (default [] (header_of a input))
           else ret ());;;
          rows <- read_rows f;; writerows (destination a) rows) st3
         (λ _ st', files st' = <[destination a :=
                       written_header (header_of a input) ++
                       merge_passes (length (c' :: cs'')) 2 (c' :: cs'')]>
                     (files st3))).
  { intros (st' & [] & Hr' & Hst'). exists st'. split; [done|].
    rewrite Hst'. split; [apply lookup_insert_eq|].
    intros s Hs. rewrite lookup_insert_ne by done. apply Hout3. }
  step_with ltac:(apply returns_open_w).
  intros ? st4 Hst4. simpl in Hst4.
  apply returns_bind.
  eapply (returns_weaken _ _
    (λ _ st5, files st5 = <[destination a := written_header (header_of a input)]>
                            (files st3))).
  2:{ unfold written_header. destruct (truthy (header_of a input)).
      - eapply returns_weaken; [|apply (returns_writerow _ _ _ [])].
        + intros ? st5 Hst5. simpl in Hst5.
          by rewrite Hst5, Hst4, insert_insert_eq.
        + rewrite Hst4. apply lookup_insert_eq.
      - by apply returns_ret. }
  intros ? st5 Hst5. simpl in Hst5.
  apply returns_bind.
  eapply returns_weaken;
    [|apply (returns_read_rows _ _
               (merge_passes (length (c' :: cs'')) 2 (c' :: cs'')))].
  2:{ rewrite Hst5. rewrite lookup_insert_ne by done. exact Hout. }
  intros ? ? [-> ->].
  eapply returns_weaken; [|apply returns_writerows].
  2:{ rewrite Hst5. apply lookup_insert_eq. }
  intros ? st6 Hst6. simpl in Hst6.
  by rewrite Hst6, Hst5, insert_insert_eq.
Qed.

End Exact.

(** ** Sizes of the chunks *)





(** Rows that together stay within the limit make one chunk. *)
Lemma chunk_loop_one getsizeof max_size reader : ∀ cur size,
  (∀ r, (0 ≤ getsizeof r)%Z) →
  (size + total_size getsizeof reader ≤ max_size)%Z →
  chunk_loop getsizeof max_size reader cur size = open_chunk (cur ++ reader).
Proof.
  induction reader as [|r reader IH]; intros cur size Hpos Hle; simpl.
  - by rewrite app_nil_r.
  - simpl in Hle.
    assert (0 ≤ total_size getsizeof reader)%Z.
    { clear -Hpos. induction reader as [|r' reader IH]; simpl; [done|].
      specialize (Hpos r'). lia. }
    rewrite (proj2 (Z.ltb_ge _ _)) by lia.
    rewrite IH by (done || lia). by rewrite <- app_assoc.
Qed.

(** ** Merge passes keep the rows *)

Lemma merge_passes_perm nway fuel : ∀ cs,
  2 ≤ nway → length cs ≤ fuel → merge_passes fuel nway cs ≡ₚ concat cs.
Proof.
  induction fuel as [|fuel IH]; intros cs Hn Hlen; rewrite merge_passes_unfold.
  - destruct cs; [done|simpl in Hlen; lia].
  - destruct (1 <? length cs)%nat eqn:E.
    + apply Nat.ltb_lt in E. rewrite IH; [|done|].
      * rewrite concat_app. simpl. rewrite app_nil_r, heapq_merge_perm.
        rewrite <- (take_drop nway cs) at 3. rewrite concat_app.
        apply Permutation_app_comm.
      * rewrite length_app, length_drop. simpl. lia.
    + apply Nat.ltb_ge in E. destruct cs as [|c [|??]]; simpl in *;
        [done|by rewrite app_nil_r|lia].
Qed.

(** ** Keys on the leading columns *)

Lemma sort_key_seq (r : row) : ∀ k i,
  i + k ≤ length r →
  sort_key ((λ j, CInt (Z.of_nat j)) <$> seq i k) r = Ok (take k (drop i r)).
Proof.
  induction k as [|k IH]; intros i Hik; simpl; [done|].
  unfold py_getitem.
  assert ((0 <=? Z.of_nat i)%Z && (Z.of_nat i <? Z.of_nat (length r))%Z = true)
    as -> by lia.
  rewrite Nat2Z.id.
  destruct (r !! i) as [x|] eqn:Ex.
  2:{ apply lookup_ge_None in Ex. lia. }
  rewrite IH by lia.
  rewrite (drop_S _ _ _ Ex). done.
Qed.

Lemma sort_key_seq_short (r : row) : ∀ k i,
  i ≤ length r → length r < i + k →
  sort_key ((λ j, CInt (Z.of_nat j)) <$> seq i k) r = Raise IndexError.
Proof.
  induction k as [|k IH]; intros i Hi Hik; simpl; [lia|].
  unfold py_getitem.
  destruct (decide (i < length r)) as [Hlt|Hge].
  - assert ((0 <=? Z.of_nat i)%Z && (Z.of_nat i <? Z.of_nat (length r))%Z = true)
      as -> by lia.
    rewrite Nat2Z.id.
    destruct (r !! i) as [x|] eqn:Ex.
    2:{ apply lookup_ge_None in Ex. lia. }
    by rewrite IH by lia.
  - assert ((0 <=? Z.of_nat i)%Z && (Z.of_nat i <? Z.of_nat (length r))%Z = false)
      as -> by lia.
    assert ((- Z.of_nat (length r) <=? Z.of_nat i)%Z && (Z.of_nat i <? 0)%Z = false)
      as -> by lia.
    done.
Qed.

Lemma sort_key_leading k (r : row) :
  sort_key (leading_columns k) r
  = if decide (k ≤ length r) then Ok (take k r) else Raise IndexError.
Proof.
  unfold leading_columns. case_decide.
  - by rewrite sort_key_seq.
  - apply sort_key_seq_short; lia.
Qed.

Lemma row_compare_take k : ∀ a b,
  row_compare (take k a) (take k b) = Lt → row_compare a b = Lt.
Proof.
  induction k as [|k IH]; intros [|x a] [|y b]; simpl; try done.
  destruct (String.compare x y); [apply IH|done..].
Qed.

(** On the leading columns, rows in whole-row order are in key order. *)
Lemma leading_columns_row_order k a b :
  k ≤ length a → k ≤ length b →
  row_lt b a = false → rows_in_order (leading_columns k) a b.
Proof.
  intros Ha Hb Hlt. exists (take k a), (take k b).
  rewrite !sort_key_leading, !decide_True by done.
  split; [done|]. split; [done|].
  rewrite row_le_not_lt. apply negb_true_iff.
  destruct (row_lt (take k b) (take k a)) eqn:E; [|done].
  unfold row_lt in *.
  destruct (row_compare (take k b) (take k a)) eqn:Ec; [done| |done].
  by rewrite (row_compare_take _ _ _ Ec) in Hlt.
Qed.

(** ** Resolved columns *)

Lemma py_index_Some s h k :
  py_index s h = Some k →
  h !! k = Some s ∧ ∀ j, j < k → h !! j ≠ Some s.
Proof.
  revert k. induction h as [|y h IH]; intros k; simpl; [done|].
  destruct (String.eqb y s) eqn:E.
  - intros [= <-]. apply String.eqb_eq in E as ->. split; [done|lia].
  - intros (k' & Hk' & ->)%fmap_Some. apply IH in Hk' as [Hk' Hfirst].
    split; [done|]. intros [|j] Hj; simpl.
    + apply String.eqb_neq in E. congruence.
    + apply Hfirst. lia.
Qed.

Lemma offence_free_resolve header c :
  header ≠ Some [] → Resolver.offence header c = None →
  match c with
  | CInt z =>
      Resolver.resolve header c = CInt z ∧
      ∀ h, header = Some h → (z < Z.of_nat (length h))%Z
  | CName s =>
      ∃ h k, header = Some h ∧
             Resolver.resolve header c = CInt (Z.of_nat k) ∧
             h !! k = Some s ∧ ∀ j, j < k → h !! j ≠ Some s
  end.
Proof.
  intros Hh. destruct c as [z|s]; simpl.
  - destruct header as [h|]; [|by intros _; split].
    destruct (Z.leb_spec (Z.of_nat (length h)) z); [done|].
    intros _. split; [done|]. by intros ? [= <-].
  - destruct header as [h|]; [|done].
    destruct (py_in s h) eqn:Hin; [|done]. intros _.
    destruct (ResolverFacts.py_in_index _ _ Hin) as [k Hk].
    exists h, k. simpl. rewrite Hk.
    by destruct (py_index_Some _ _ _ Hk).
Qed.

Lemma parse_columns_ok_spec cols header cols' :
  (parse_columns cols header).2 = Ok cols' →
  Forall (λ c, Resolver.offence (Resolver.effective header) c = None) cols ∧
  cols' = Resolver.resolve (Resolver.effective header) <$> cols ∧
  (parse_columns cols header).1 = cols'.
Proof.
  rewrite ResolverFacts.parse_columns_effective.
  rewrite (ResolverFacts.parse_columns_spec _ _
             (ResolverFacts.effective_nonempty header)).
  destruct (Resolver.first_offence _ _) as [[k e]|] eqn:E; simpl; [done|].
  intros [= <-]. by apply ResolverFacts.first_offence_None in E.
Qed.

Lemma parse_columns_ok_int cols header cols' :
  (parse_columns cols header).2 = Ok cols' →
  Forall (λ c, is_int_column c = true) cols'.
Proof.
  intros (Hoff & -> & _)%parse_columns_ok_spec.
  apply Forall_fmap. eapply Forall_impl; [exact Hoff|].
  intros c Hc. simpl.
  pose proof (offence_free_resolve _ c
                (ResolverFacts.effective_nonempty header) Hc) as Hr.
  destruct c as [z|s].
  - by destruct Hr as [-> _].
  - by destruct Hr as (h & k & _ & -> & _).
Qed.

(** ** The exceptions of the sort *)

Lemma py_getitem_raise {A} (l : list A) z e :
  py_getitem l z = Raise e → e = IndexError.
Proof. unfold py_getitem. repeat case_match; congruence. Qed.

Lemma sort_key_int_raise cols r e :
  Forall (λ c, is_int_column c = true) cols →
  sort_key cols r = Raise e → e = IndexError.
Proof.
  induction 1 as [|c cols Hc _ IH]; simpl; [done|].
  destruct c as [z|s]; [|done]. simpl.
  destruct (py_getitem r z) as [x|e'|] eqn:Ex.
  - destruct (sort_key cols r); [done| |done]. intros [= <-]. by apply IH.
  - intros [= <-]. by eapply py_getitem_raise.
  - done.
Qed.

Lemma decorate_int_raise cols rows e :
  Forall (λ c, is_int_column c = true) cols →
  decorate cols rows = Raise e → e = IndexError.
Proof.
  intros Hc. induction rows as [|r rows IH]; simpl; [done|].
  destruct (sort_key cols r) as [k|e'|] eqn:E.
  - destruct (decorate cols rows); [done| |done]. intros [= <-]. by apply IH.
  - intros [= <-]. by eapply sort_key_int_raise.
  - done.
Qed.

Lemma sort_all_int_raise cols cs e :
  Forall (λ c, is_int_column c = true) cols →
  sort_all cols cs = Raise e → e = IndexError.
Proof.
  intros Hc. induction cs as [|c cs IH]; simpl; [done|].
  unfold list_sort at 1.
  destruct (decorate cols c) as [d|e'|] eqn:E.
  - destruct (sort_all cols cs); [done| |done]. intros [= <-]. by apply IH.
  - intros [= <-]. by eapply decorate_int_raise.
  - done.
Qed.

Lemma sort_all_is_ok cols cs :
  is_ok (sort_all cols cs) = true ↔
  Forall (λ r, is_ok (sort_key cols r) = true) (concat cs).
Proof.
  induction cs as [|c cs IH]; simpl; [by split; [constructor|]|].
  rewrite Forall_app, <- IH, list_sort_ok.
  destruct (list_sort cols c); simpl; [|by intuition..].
  destruct (sort_all cols cs); simpl; by intuition.
Qed.

Lemma chunks_nil getsizeof data max_size :
  chunks getsizeof data max_size = [] ↔ data = [].
Proof.
  unfold chunks. split.
  - intros H. pose proof (chunk_loop_concat getsizeof
      (max_size * 1024 * 1024)%Z data [] 0%Z) as Hc. by rewrite H in Hc.
  - by intros ->.
Qed.

Lemma pipeline_rows_not_diverge getsizeof cols max_size data :
  pipeline_rows getsizeof cols max_size data ≠ Diverge.
Proof.
  unfold pipeline_rows.
  pose proof (sort_all_not_diverge cols (chunks getsizeof data max_size)).
  destruct (sort_all _ _) as [[|??]| |]; done.
Qed.

(** The pipeline has rows to write exactly when there is a data row and
    every data row has the key fields. *)
Lemma pipeline_rows_is_ok getsizeof cols max_size data :
  is_ok (pipeline_rows getsizeof cols max_size data) = true ↔
  data ≠ [] ∧ Forall (λ r, is_ok (sort_key cols r) = true) data.
Proof.
  unfold pipeline_rows.
  pose proof (sort_all_is_ok cols (chunks getsizeof data max_size)) as Hok.
  pose proof (sort_all_ok cols (chunks getsizeof data max_size)) as Hf.
  unfold chunks in Hok at 2. rewrite chunk_loop_concat in Hok. simpl in Hok.
  rewrite <- Hok, <- (chunks_nil getsizeof data max_size).
  destruct (sort_all _ _) as [[|c' cs']| |]; simpl.
  - specialize (Hf _ eq_refl). apply Forall2_nil_inv_r in Hf.
    split; [done|]. by intros [? _].
  - specialize (Hf _ eq_refl). split; [|done]. intros _. split; [|done].
    intros Hnil. rewrite Hnil in Hf. by apply Forall2_nil_inv_l in Hf.
  - split; [done|]. by intros [_ ?].
  - split; [done|]. by intros [_ ?].
Qed.

Lemma pipeline_rows_int_raise getsizeof cols max_size data e :
  Forall (λ c, is_int_column c = true) cols →
  pipeline_rows getsizeof cols max_size data = Raise e → e = IndexError.
Proof.
  intros Hc. unfold pipeline_rows.
  destruct (sort_all _ _) as [[|??]|e'|] eqn:E; try done.
  - by intros [= <-].
  - intros [= <-]. by eapply sort_all_int_raise.
Qed.

Lemma pipeline_rows_perm getsizeof cols max_size data out :
  pipeline_rows getsizeof cols max_size data = Ok out → out ≡ₚ data.
Proof.
  unfold pipeline_rows.
  destruct (sort_all _ _) as [[|c' cs']| |] eqn:E; try done.
  intros Hout.
  assert (out = merge_passes (length (c' :: cs')) 2 (c' :: cs')) as ->
    by congruence.
  rewrite merge_passes_perm by (done || lia).
  rewrite (concat_sorted_perm _ _ _ (sort_all_ok _ _ _ E)).
  unfold chunks. by rewrite chunk_loop_concat.
Qed.

Section ExactRun.

Variable getsizeof : row → Z.

(** [csvsort] computes [csvsort_result], touches no file outside the
    workspace but the destination, and the destination only on success. *)
Lemma csvsort_exact a st :
  match csvsort_result getsizeof a (files st) with
  | Ok content =>
      ∃ st', csvsort getsizeof a st = (st', Ok ()) ∧
        files st' !! destination a = Some content ∧
        ∀ s, Outside s ≠ destination a →
             files st' !! Outside s = files st !! Outside s
  | Raise e =>
      ∃ st', csvsort getsizeof a st = (st', Raise e) ∧
        ∀ s, files st' !! Outside s = files st !! Outside s
  | Diverge => False
  end.
Proof.
  unfold csvsort_result, csvsort, try_finally.
  destruct (files st !! Outside (input_filename a)) as [input|] eqn:Hin.
  2:{ exists (rmtree (makedirs st)). split; [|intros s; by rewrite rmtree_lookup_outside].
      unfold csvsort_try. erewrite bind_raise; [done|].
      unfold read_rows. simpl. by rewrite Hin. }
  destruct (has_header a && bool_decide (input = [])) eqn:Hh.
  { apply andb_true_iff in Hh as [Hh ->%bool_decide_eq_true].
    exists (rmtree (makedirs st)). split; [|intros s; by rewrite rmtree_lookup_outside].
    unfold csvsort_try. erewrite bind_ok; [|unfold read_rows; simpl; by rewrite Hin].
    rewrite Hh. by erewrite bind_raise. }
  assert (has_header a = true → input ≠ []) as Hhd.
  { intros Hh' ->. by rewrite Hh' in Hh. }
  pose proof (parse_columns_not_diverge (columns a) (header_of a input)) as Hpd.
  destruct (parse_columns (columns a) (header_of a input)).2 as [cols|e|] eqn:Hp;
    [| |done].
  2:{ exists (rmtree (makedirs st)). split; [|intros s; by rewrite rmtree_lookup_outside].
      by rewrite (csvsort_try_parse_raises getsizeof a (makedirs st) input e). }
  pose proof (csvsort_try_exact getsizeof a (makedirs st) input cols Hin Hhd Hp)
    as Hex.
  destruct (pipeline_rows getsizeof cols (max_size a) (data_of a input))
    as [out|e|]; [| |done].
  - destruct Hex as (st1 & Htry & Hout & Hfr). exists (rmtree st1).
    rewrite Htry. split; [done|]. unfold destination in *.
    rewrite rmtree_lookup_outside. split; [done|].
    intros s Hs. rewrite rmtree_lookup_outside. by apply Hfr.
  - destruct Hex as (st1 & Htry & Hfr). exists (rmtree st1).
    rewrite Htry. split; [done|].
    intros s. rewrite rmtree_lookup_outside. by apply Hfr.
Qed.

End ExactRun.

Lemma py_getitem_is_ok {A} (l : list A) z :
  is_ok (py_getitem l z) = true ↔
  (- Z.of_nat (length l) ≤ z < Z.of_nat (length l))%Z.
Proof.
  unfold py_getitem.
  destruct ((0 <=? z)%Z && (z <? Z.of_nat (length l))%Z) eqn:E1.
  - destruct (l !! Z.to_nat z) eqn:El; simpl; [lia|].
    apply lookup_ge_None in El. lia.
  - destruct ((- Z.of_nat (length l) <=? z)%Z && (z <? 0)%Z) eqn:E2.
    + destruct (l !! Z.to_nat (Z.of_nat (length l) + z)) eqn:El; simpl; [lia|].
      apply lookup_ge_None in El. lia.
    + simpl. lia.
Qed.

Lemma sort_key_ints_is_ok (zs : list Z) (r : row) :
  is_ok (sort_key (CInt <$> zs) r) = true ↔
  Forall (λ z, (- Z.of_nat (length r) ≤ z < Z.of_nat (length r))%Z) zs.
Proof.
  induction zs as [|z zs IH]; csimpl; [by split; [constructor|]|].
  rewrite Forall_cons, <- IH, <- (py_getitem_is_ok r z).
  destruct (py_getitem r z); csimpl; [|by intuition..].
  destruct (sort_key (CInt <$> zs) r); csimpl; by intuition.
Qed.

(** * Properties of the functions and of their composition *)

Local Open Scope string_scope.
Local Open Scope list_scope.

(** X1.  After a successful [parse_columns] against a header, every entry
    of the result is an integer below the header length: an integer
    specifier is kept, and a name is replaced by the position of its first
    occurrence in the header, so that the header read at the result gives
    the name back. *)
Theorem parse_columns_resolved cols (h : row) cols' :
  h ≠ [] →
  (parse_columns cols (Some h)).2 = Ok cols' →
  Forall2 (λ c c',
     match c with
     | CInt z => c' = CInt z ∧ (z < Z.of_nat (length h))%Z
     | CName s =>
         ∃ k, c' = CInt (Z.of_nat k) ∧ h !! k = Some s ∧
              ∀ j, (j < k)%nat → h !! j ≠ Some s
     end) cols cols'.
Proof.
  intros Hh (Hoff & -> & _)%parse_columns_ok_spec.
  assert (Resolver.effective (Some h) = Some h) as Heff by by destruct h.
  rewrite Heff in *.
  apply Forall2_fmap_r, Forall_Forall2_diag.
  eapply Forall_impl; [exact Hoff|]. intros c Hc.
  assert (Some h ≠ Some []) as Hne by congruence.
  pose proof (offence_free_resolve _ c Hne Hc) as Hr.
  destruct c as [z|s].
  - destruct Hr as [_ Hz]. split; [done|]. by apply Hz.
  - destruct Hr as (h' & k & [= <-] & Hres & Hk & Hfirst). by exists k.
Qed.

Lemma parse_columns_resolved_witness :
  ["a"; "b"; "a"] ≠ [] ∧
  (parse_columns [CName "a"; CInt 1%Z; CName "b"] (Some ["a"; "b"; "a"])).2
    = Ok [CInt 0%Z; CInt 1%Z; CInt 1%Z] ∧
  Forall2 (λ c c',
     match c with
     | CInt z => c' = CInt z ∧ (z < Z.of_nat (length ["a"; "b"; "a"]))%Z
     | CName s =>
         ∃ k, c' = CInt (Z.of_nat k) ∧ ["a"; "b"; "a"] !! k = Some s ∧
              ∀ j, (j < k)%nat → ["a"; "b"; "a"] !! j ≠ Some s
     end) [CName "a"; CInt 1%Z; CName "b"] [CInt 0%Z; CInt 1%Z; CInt 1%Z].
Proof.
  split; [discriminate|]. split; [reflexivity|].
  apply (parse_columns_resolved [CName "a"; CInt 1%Z; CName "b"]
           ["a"; "b"; "a"]); [discriminate|reflexivity].
Defined.

Lemma parse_columns_ints_no_header cols :
  Forall (λ c, is_int_column c = true) cols →
  parse_columns cols None = (cols, Ok cols).
Proof.
  intros Hint.
  rewrite (ResolverFacts.parse_columns_spec None cols) by done.
  assert (Resolver.first_offence None cols = None) as ->.
  { apply ResolverFacts.first_offence_None.
    eapply Forall_impl; [exact Hint|]. by intros [z|s]. }
  assert (Resolver.resolve None <$> cols = cols) as ->; [|done].
  induction Hint as [|c cols Hc _ IH]; [done|].
  csimpl. rewrite IH. by destruct c.
Qed.

(** X2.  Resolution is idempotent: a list that [parse_columns] has
    returned passes [parse_columns] again unchanged, against the same
    header and also without a header. *)
Theorem parse_columns_idempotent cols header cols' :
  (parse_columns cols header).2 = Ok cols' →
  parse_columns cols' header = (cols', Ok cols') ∧
  parse_columns cols' None = (cols', Ok cols').
Proof.
  intros Hp. split.
  2:{ apply parse_columns_ints_no_header. by eapply parse_columns_ok_int. }
  revert Hp.
  intros (Hoff & -> & _)%parse_columns_ok_spec.
  pose proof (ResolverFacts.effective_nonempty header) as Hh.
  rewrite ResolverFacts.parse_columns_effective.
  rewrite (ResolverFacts.parse_columns_spec _ _ Hh).
  revert Hoff Hh. generalize (Resolver.effective header). intros h Hoff Hh.
  assert (Forall (λ c, Resolver.offence h (Resolver.resolve h c) = None ∧
                       Resolver.resolve h (Resolver.resolve h c)
                       = Resolver.resolve h c) cols) as Hfix.
  { eapply Forall_impl; [exact Hoff|]. intros c Hc.
    pose proof (offence_free_resolve _ c Hh Hc) as Hr.
    destruct c as [z|s]; [done|].
    destruct Hr as (h' & k & -> & -> & Hk & _). split; [|done]. simpl.
    apply lookup_lt_Some in Hk.
    by rewrite (proj2 (Z.leb_gt _ _)) by lia. }
  assert (Resolver.first_offence h (Resolver.resolve h <$> cols) = None) as ->.
  { apply ResolverFacts.first_offence_None, Forall_fmap.
    eapply Forall_impl; [exact Hfix|]. by intros c [? _]. }
  assert (Resolver.resolve h <$> (Resolver.resolve h <$> cols)
          = Resolver.resolve h <$> cols) as ->; [|done].
  rewrite <- list_fmap_compose. apply Forall_fmap_ext_1.
  eapply Forall_impl; [exact Hfix|]. by intros c [_ ?].
Qed.

Lemma parse_columns_idempotent_witness :
  (parse_columns [CName "b"; CInt (-1)%Z] (Some ["a"; "b"])).2
    = Ok [CInt 1%Z; CInt (-1)%Z] ∧
  parse_columns [CInt 1%Z; CInt (-1)%Z] (Some ["a"; "b"])
    = ([CInt 1%Z; CInt (-1)%Z], Ok [CInt 1%Z; CInt (-1)%Z]) ∧
  parse_columns [CInt 1%Z; CInt (-1)%Z] None
    = ([CInt 1%Z; CInt (-1)%Z], Ok [CInt 1%Z; CInt (-1)%Z]).
Proof.
  split; [reflexivity|].
  apply (parse_columns_idempotent [CName "b"; CInt (-1)%Z] (Some ["a"; "b"])).
  reflexivity.
Defined.

(** X3.  The key of a row on integer columns exists exactly when every
    column lies between minus the number of fields and the number of
    fields; for any other row, computing the key raises [IndexError]. *)
Theorem sort_key_index_error (zs : list Z) (r : row) :
  (is_ok (sort_key (CInt <$> zs) r) = true ↔
   Forall (λ z, (- Z.of_nat (length r) ≤ z < Z.of_nat (length r))%Z) zs) ∧
  (is_ok (sort_key (CInt <$> zs) r) = true ∨
   sort_key (CInt <$> zs) r = Raise IndexError).
Proof.
  split; [apply sort_key_ints_is_ok|].
  pose proof (sort_key_not_diverge (CInt <$> zs) r) as Hnd.
  destruct (sort_key (CInt <$> zs) r) as [k|e|] eqn:E; [by left| |done].
  right. f_equal. eapply sort_key_int_raise; [|exact E].
  apply Forall_fmap. by apply Forall_true.
Qed.

(** X4.  [memorysort] on a file whose rows all have the key fields rewrites
    that file, and no other, with the same rows in ascending key order;
    rows with equal keys keep the order they had in the file. *)
Theorem memorysort_sorts_file f cols st (rows : list row) :
  files st !! f = Some rows →
  Forall (λ r, is_ok (sort_key cols r) = true) rows →
  ∃ st' out,
    memorysort f cols st = (st', Ok ()) ∧
    files st' = <[f := out]> (files st) ∧
    out ≡ₚ rows ∧
    Sorted (rows_in_order cols) out ∧
    ∀ k, filter (λ r, sort_key cols r = Ok k) out
         = filter (λ r, sort_key cols r = Ok k) rows.
Proof.
  intros Hf Hkeys. apply list_sort_ok in Hkeys.
  destruct (list_sort cols rows) as [out| |] eqn:Hsort; [|done..].
  destruct (returns_memorysort f cols st rows out Hf Hsort)
    as (st' & [] & Hm & Hst').
  exists st', out. split; [done|]. split; [done|].
  split; [by eapply list_sort_perm|].
  split; [by eapply list_sort_sorted|].
  intros k. by apply list_sort_stable.
Qed.

Lemma memorysort_sorts_file_witness :
  let st := State {[ Split 0 := [["b"; "2"]; ["a"; "3"]; ["a"; "1"]] ]} true [] in
  files st !! Split 0 = Some [["b"; "2"]; ["a"; "3"]; ["a"; "1"]] ∧
  Forall (λ r, is_ok (sort_key [CInt 0%Z] r) = true)
    [["b"; "2"]; ["a"; "3"]; ["a"; "1"]] ∧
  ∃ st' out,
    memorysort (Split 0) [CInt 0%Z] st = (st', Ok ()) ∧
    files st' = <[Split 0 := out]> (files st) ∧
    out ≡ₚ [["b"; "2"]; ["a"; "3"]; ["a"; "1"]] ∧
    Sorted (rows_in_order [CInt 0%Z]) out ∧
    ∀ k, filter (λ r, sort_key [CInt 0%Z] r = Ok k) out
         = filter (λ r, sort_key [CInt 0%Z] r = Ok k)
             [["b"; "2"]; ["a"; "3"]; ["a"; "1"]].
Proof.
  intros st.
  assert (files st !! Split 0 = Some [["b"; "2"]; ["a"; "3"]; ["a"; "1"]])
    as Hf by reflexivity.
  assert (Forall (λ r, is_ok (sort_key [CInt 0%Z] r) = true)
            [["b"; "2"]; ["a"; "3"]; ["a"; "1"]]) as Hk
    by (repeat constructor).
  split; [exact Hf|]. split; [exact Hk|].
  exact (memorysort_sorts_file (Split 0) [CInt 0%Z] st _ Hf Hk).
Defined.

(** X5.  When a row of the file lacks a field of an integer key column,
    [memorysort] raises [IndexError] before it opens the file for writing:
    the file system is left as it was. *)
Theorem memorysort_short_row f cols st (rows : list row) :
  files st !! f = Some rows →
  Forall (λ c, is_int_column c = true) cols →
  Exists (λ r, is_ok (sort_key cols r) = false) rows →
  memorysort f cols st = (st, Raise IndexError).
Proof.
  intros Hf Hint Hex.
  assert (is_ok (list_sort cols rows) = false) as Hno.
  { destruct (is_ok (list_sort cols rows)) eqn:E; [|done].
    apply list_sort_ok in E. apply Exists_exists in Hex as (r & Hr & Hno).
    rewrite Forall_forall in E. rewrite (E r) in Hno by done. done. }
  unfold memorysort.
  rewrite (bind_ok _ _ st st rows); [|unfold read_rows; by rewrite Hf].
  apply bind_raise. unfold lift, list_sort in *.
  pose proof (decorate_not_diverge cols rows) as Hnd.
  destruct (decorate cols rows) as [d|e|] eqn:E; [done| |done].
  by rewrite (decorate_int_raise _ _ _ Hint E).
Qed.

Lemma memorysort_short_row_witness :
  let st := State {[ Split 0 := [["b"; "2"]; ["a"]] ]} true [] in
  files st !! Split 0 = Some [["b"; "2"]; ["a"]] ∧
  Forall (λ c, is_int_column c = true) [CInt 1%Z] ∧
  Exists (λ r, is_ok (sort_key [CInt 1%Z] r) = false) [["b"; "2"]; ["a"]] ∧
  memorysort (Split 0) [CInt 1%Z] st = (st, Raise IndexError).
Proof.
  intros st.
  assert (files st !! Split 0 = Some [["b"; "2"]; ["a"]]) as Hf by reflexivity.
  assert (Forall (λ c, is_int_column c = true) [CInt 1%Z]) as Hint
    by (repeat constructor).
  assert (Exists (λ r, is_ok (sort_key [CInt 1%Z] r) = false)
            [["b"; "2"]; ["a"]]) as Hex
    by (apply Exists_cons_tl, Exists_cons_hd; reflexivity).
  split; [exact Hf|]. split; [exact Hint|]. split; [exact Hex|].
  exact (memorysort_short_row (Split 0) [CInt 1%Z] st _ Hf Hint Hex).
Defined.








(** X10.  [mergesort] with a fan-in of two or more, on distinct files of
    the workspace none of which is a merge file, returns one file that
    holds all their rows; the files it was given are removed, but for the
    one it returns, and no file outside the workspace is touched. *)
Theorem mergesort_consumes_files names (cs : list (list row)) cols nway st :
  (2 ≤ nway)%nat →
  names ≠ [] →
  NoDup names →
  Forall (λ f, in_workspace f = true) names →
  (∀ j, Merge j ∉ names) →
  Forall2 (λ f c, files st !! f = Some c) names cs →
  ∃ st' f out,
    mergesort names cols nway st = (st', Ok f) ∧
    files st' !! f = Some out ∧
    out ≡ₚ concat cs ∧
    (∀ g, g ∈ names → g ≠ f → files st' !! g = None) ∧
    (∀ s, files st' !! Outside s = files st !! Outside s).
Proof.
  intros Hn Hne Hnd Hws Hfresh Hs. unfold mergesort.
  destruct (returns_mergesort_loop_exact cols nway (length names) 0 names cs st)
    as (st' & f & Hm & Hf & Hout & Hdel & Hfr); try done.
  exists st', f, (merge_passes (length names) nway cs).
  split; [done|]. split; [done|]. split.
  - apply merge_passes_perm; [done|].
    by rewrite (Forall2_length _ _ _ Hs).
  - split; [done|]. intros s. apply Hfr; [|done].
    intros Hin. rewrite Forall_forall in Hws. by specialize (Hws _ Hin).
Qed.

Lemma mergesort_consumes_files_witness :
  let names := [Split 0; Split 1; Split 2] in
  let cs := [[["b"]]; [["a"]]; [["c"]]] in
  let st := State {[ Split 0 := [["b"]]; Split 1 := [["a"]];
                     Split 2 := [["c"]] ]} true [] in
  (2 ≤ 2)%nat ∧ names ≠ [] ∧ NoDup names ∧
  Forall (λ f, in_workspace f = true) names ∧
  (∀ j, Merge j ∉ names) ∧
  Forall2 (λ f c, files st !! f = Some c) names cs ∧
  ∃ st' f out,
    mergesort names [CInt 0%Z] 2 st = (st', Ok f) ∧
    files st' !! f = Some out ∧
    out ≡ₚ concat cs ∧
    (∀ g, g ∈ names → g ≠ f → files st' !! g = None) ∧
    (∀ s, files st' !! Outside s = files st !! Outside s).
Proof.
  intros names cs st.
  assert (2 ≤ 2)%nat as H1 by lia.
  assert (names ≠ []) as H2 by discriminate.
  assert (NoDup names) as H3.
  { apply NoDup_ListNoDup. repeat constructor; simpl; intuition discriminate. }
  assert (Forall (λ f, in_workspace f = true) names) as H4
    by (repeat constructor).
  assert (∀ j, Merge j ∉ names) as H5.
  { intros j Hj. apply list_elem_of_In in Hj. simpl in Hj.
    intuition discriminate. }
  assert (Forall2 (λ f c, files st !! f = Some c) names cs) as H6
    by (repeat constructor).
  do 6 (split; [assumption|]).
  exact (mergesort_consumes_files names cs [CInt 0%Z] 2 st H1 H2 H3 H4 H5 H6).
Defined.

(** X11.  [mergesort] keeps the order in which [heapq.merge] compares: when
    the rows of every file are in ascending order as whole rows, so are the
    rows of the file it returns. *)
Theorem mergesort_keeps_row_order names (cs : list (list row)) cols nway st :
  (2 ≤ nway)%nat →
  names ≠ [] →
  NoDup names →
  Forall (λ f, in_workspace f = true) names →
  (∀ j, Merge j ∉ names) →
  Forall2 (λ f c, files st !! f = Some c) names cs →
  Forall (Sorted row_order) cs →
  ∃ st' f out,
    mergesort names cols nway st = (st', Ok f) ∧
    files st' !! f = Some out ∧
    Sorted row_order out.
Proof.
  intros Hn Hne Hnd Hws Hfresh Hs Hsorted. unfold mergesort.
  destruct (returns_mergesort_loop_exact cols nway (length names) 0 names cs st)
    as (st' & f & Hm & Hf & Hout & Hdel & Hfr); try done.
  exists st', f, (merge_passes (length names) nway cs).
  split; [done|]. split; [done|].
  apply (merge_passes_sorted row_order (λ _, True)); [| done |].
  - intros a b _ _ Hlt. unfold row_order. by rewrite row_le_not_lt, Hlt.
  - apply Forall_forall. intros c _. by apply Forall_true.
Qed.

Lemma mergesort_keeps_row_order_witness :
  let names := [Split 0; Split 1] in
  let cs := [[["a"; "2"]; ["c"; "0"]]; [["b"; "1"]]] in
  let st := State {[ Split 0 := [["a"; "2"]; ["c"; "0"]];
                     Split 1 := [["b"; "1"]] ]} true [] in
  (2 ≤ 2)%nat ∧ names ≠ [] ∧ NoDup names ∧
  Forall (λ f, in_workspace f = true) names ∧
  (∀ j, Merge j ∉ names) ∧
  Forall2 (λ f c, files st !! f = Some c) names cs ∧
  Forall (Sorted row_order) cs ∧
  ∃ st' f out,
    mergesort names [CInt 1%Z] 2 st = (st', Ok f) ∧
    files st' !! f = Some out ∧
    Sorted row_order out.
Proof.
  intros names cs st.
  assert (2 ≤ 2)%nat as H1 by lia.
  assert (names ≠ []) as H2 by discriminate.
  assert (NoDup names) as H3.
  { apply NoDup_ListNoDup. repeat constructor; simpl; intuition discriminate. }
  assert (Forall (λ f, in_workspace f = true) names) as H4
    by (repeat constructor).
  assert (∀ j, Merge j ∉ names) as H5.
  { intros j Hj. apply list_elem_of_In in Hj. simpl in Hj.
    intuition discriminate. }
  assert (Forall2 (λ f c, files st !! f = Some c) names cs) as H6
    by (repeat constructor).
  assert (Forall (Sorted row_order) cs) as H7 by (repeat constructor).
  do 7 (split; [assumption|]).
  exact (mergesort_keeps_row_order names cs [CInt 1%Z] 2 st
           H1 H2 H3 H4 H5 H6 H7).
Defined.

(** The outcome of a run and the conditions of [runs_through]. *)
Lemma csvsort_result_ok_iff getsizeof a st :
  is_ok (csvsort_result getsizeof a (files st)) = true ↔
  ∃ input cols, runs_through a st input cols.
Proof.
  unfold csvsort_result, runs_through. split.
  - destruct (files st !! Outside (input_filename a)) as [input|]; [|done].
    destruct (has_header a && bool_decide (input = [])) eqn:Hh; [done|].
    destruct (parse_columns (columns a) (header_of a input)).2
      as [cols|e|] eqn:Hp; [|done..].
    pose proof (pipeline_rows_is_ok getsizeof cols (max_size a)
                  (data_of a input)) as Hok.
    destruct (pipeline_rows _ _ _ _); [|done..].
    intros _. exists input, cols. split; [done|]. split.
    { intros Hhd ->. by rewrite Hhd in Hh. }
    split; [done|]. by apply Hok.
  - intros (input & cols & -> & Hhd & -> & Hdata).
    assert (has_header a && bool_decide (input = []) = false) as ->.
    { destruct (has_header a); [|done]. simpl.
      apply bool_decide_eq_false_2. by apply Hhd. }
    apply (pipeline_rows_is_ok getsizeof cols (max_size a)) in Hdata.
    by destruct (pipeline_rows _ _ _ _).
Qed.

(** X12.  The rows of a run that returns: the destination holds the header
    row, if there is one to write, and behind it the data rows cut into the
    chunks of [csvsplit], every chunk sorted by [memorysort], and the
    chunks merged two at a time, the merged rows going behind the chunks
    that still wait.  Stale files in the workspace have no part in it. *)
Theorem csvsort_computes_result getsizeof a st st' :
  csvsort getsizeof a st = (st', Ok ()) →
  ∃ input cols cs,
    files st !! Outside (input_filename a) = Some input ∧
    (parse_columns (columns a) (header_of a input)).2 = Ok cols ∧
    sort_all cols (chunks getsizeof (data_of a input) (max_size a)) = Ok cs ∧
    files st' !! destination a
      = Some (written_header (header_of a input)
              ++ merge_passes (length cs) 2 cs).
Proof.
  intros Hret.
  pose proof (csvsort_exact getsizeof a st) as H.
  unfold csvsort_result in H.
  destruct (files st !! Outside (input_filename a)) as [input|].
  2:{ destruct H as (st'' & H & _). congruence. }
  destruct (has_header a && bool_decide (input = [])).
  { destruct H as (st'' & H & _). congruence. }
  destruct (parse_columns (columns a) (header_of a input)).2
    as [cols|e|] eqn:Hp; [| |done].
  2:{ destruct H as (st'' & H & _). congruence. }
  unfold pipeline_rows in H.
  destruct (sort_all cols (chunks getsizeof (data_of a input) (max_size a)))
    as [[|c cs]|e|] eqn:Hs; [| | |done].
  - destruct H as (st'' & H & _). congruence.
  - destruct H as (st'' & H & Hout & _).
    assert (st'' = st') as -> by congruence.
    by exists input, cols, (c :: cs).
  - destruct H as (st'' & H & _). congruence.
Qed.

Lemma csvsort_computes_result_witness :
  let a := Args "in.csv" [CName "v"] "out.csv" 0 true in
  let input := [["k"; "v"]; ["b"; "2"]; ["a"; "3"]; ["c"; "1"]] in
  let st := one_file "in.csv" input in
  let st' := (csvsort cpython_getsizeof a st).1 in
  csvsort cpython_getsizeof a st = (st', Ok ()) ∧
  ∃ input cols cs,
    files st !! Outside (input_filename a) = Some input ∧
    (parse_columns (columns a) (header_of a input)).2 = Ok cols ∧
    sort_all cols (chunks cpython_getsizeof (data_of a input) (max_size a))
      = Ok cs ∧
    files st' !! destination a
      = Some (written_header (header_of a input)
              ++ merge_passes (length cs) 2 cs).
Proof.
  intros a input st st'.
  assert (csvsort cpython_getsizeof a st = (st', Ok ())) as H
    by (vm_compute; reflexivity).
  split; [exact H|].
  exact (csvsort_computes_result cpython_getsizeof a st st' H).
Defined.

(** The rows behind the header after a run that returned. *)
Lemma csvsort_ok_rows getsizeof a st input cols st' :
  files st !! Outside (input_filename a) = Some input →
  (parse_columns (columns a) (header_of a input)).2 = Ok cols →
  csvsort getsizeof a st = (st', Ok ()) →
  ∃ out,
    pipeline_rows getsizeof cols (max_size a) (data_of a input) = Ok out ∧
    files st' !! destination a
      = Some (written_header (header_of a input) ++ out).
Proof.
  intros Hin Hp Hret.
  pose proof (csvsort_exact getsizeof a st) as H.
  unfold csvsort_result in H. rewrite Hin in H.
  destruct (has_header a && bool_decide (input = [])).
  { destruct H as (st'' & H & _). congruence. }
  rewrite Hp in H.
  destruct (pipeline_rows getsizeof cols (max_size a) (data_of a input))
    as [out|e|]; [| |done].
  - destruct H as (st'' & H & Hout & _).
    assert (st'' = st') as -> by congruence. by exists out.
  - destruct H as (st'' & H & _). congruence.
Qed.

Lemma sort_all_sorted cols cs cs' :
  sort_all cols cs = Ok cs' →
  Forall (Sorted (rows_in_order cols)) cs' ∧
  Forall (Forall (λ r, is_ok (sort_key cols r) = true)) cs'.
Proof.
  intros Hf2%sort_all_ok. split.
  - apply Forall_forall. intros c Hc.
    apply list_elem_of_lookup in Hc as [i Hi].
    pose proof (Forall2_lookup_r _ _ _ _ _ Hf2 Hi) as (c0 & _ & Hc0).
    by eapply list_sort_sorted.
  - apply Forall_forall. intros c Hc.
    apply list_elem_of_lookup in Hc as [i Hi].
    pose proof (Forall2_lookup_r _ _ _ _ _ Hf2 Hi) as (c0 & _ & Hc0).
    rewrite (list_sort_perm _ _ _ Hc0).
    apply list_sort_ok. by rewrite Hc0.
Qed.

(** On the leading columns the merge on whole rows keeps the key order. *)
Lemma pipeline_rows_leading_sorted getsizeof k max_size data out :
  pipeline_rows getsizeof (leading_columns k) max_size data = Ok out →
  Sorted (rows_in_order (leading_columns k)) out ∧
  Forall (λ r, (k ≤ length r)%nat) out.
Proof.
  unfold pipeline_rows.
  destruct (sort_all (leading_columns k) (chunks getsizeof data max_size))
    as [[|c' cs']| |] eqn:Esa; try done.
  intros Hout.
  assert (out = merge_passes (length (c' :: cs')) 2 (c' :: cs')) as ->
    by congruence.
  destruct (sort_all_sorted _ _ _ Esa) as [Hs Hk].
  apply (merge_passes_sorted (rows_in_order (leading_columns k))
           (λ r, (k ≤ length r)%nat)).
  - intros x y. apply leading_columns_row_order.
  - done.
  - eapply Forall_impl; [exact Hk|]. intros c Hc.
    eapply Forall_impl; [exact Hc|]. intros r. simpl.
    rewrite sort_key_leading. by case_decide.
Qed.

(** X13.  Sorting on the leading columns [0 .. k-1] is correct for every
    chunk size: whenever [csvsort] returns, the data rows of the output are
    in ascending order of their keys. *)
Theorem csvsort_leading_columns_sorted getsizeof a st input k st' :
  files st !! Outside (input_filename a) = Some input →
  (parse_columns (columns a) (header_of a input)).2 = Ok (leading_columns k) →
  csvsort getsizeof a st = (st', Ok ()) →
  ∃ out,
    files st' !! destination a
      = Some (written_header (header_of a input) ++ out) ∧
    out ≡ₚ data_of a input ∧
    Sorted (rows_in_order (leading_columns k)) out.
Proof.
  intros Hin Hp Hret.
  destruct (csvsort_ok_rows getsizeof a st input _ st' Hin Hp Hret)
    as (out & Hpipe & Hout).
  exists out. split; [done|]. split; [by eapply pipeline_rows_perm|].
  by eapply pipeline_rows_leading_sorted.
Qed.

Lemma csvsort_leading_columns_sorted_witness :
  let a := Args "in.csv" [CName "k"] "out.csv" 0 true in
  let input := [["k"; "v"]; ["b"; "2"]; ["a"; "3"]; ["c"; "0"]; ["a"; "1"]] in
  let st := one_file "in.csv" input in
  let st' := (csvsort cpython_getsizeof a st).1 in
  files st !! Outside (input_filename a) = Some input ∧
  (parse_columns (columns a) (header_of a input)).2 = Ok (leading_columns 1) ∧
  csvsort cpython_getsizeof a st = (st', Ok ()) ∧
  ∃ out,
    files st' !! destination a
      = Some (written_header (header_of a input) ++ out) ∧
    out ≡ₚ data_of a input ∧
    Sorted (rows_in_order (leading_columns 1)) out.
Proof.
  intros a input st st'.
  assert (files st !! Outside (input_filename a) = Some input) as H1
    by reflexivity.
  assert ((parse_columns (columns a) (header_of a input)).2
          = Ok (leading_columns 1)) as H2 by reflexivity.
  assert (csvsort cpython_getsizeof a st = (st', Ok ())) as H3
    by (vm_compute; reflexivity).
  split; [exact H1|]. split; [exact H2|]. split; [exact H3|].
  exact (csvsort_leading_columns_sorted cpython_getsizeof a st input 1 st'
           H1 H2 H3).
Defined.

(** X14.  [csvsort] changes no file outside its workspace but the
    destination.  When the conditions of [runs_through] fail (the input is
    missing, a header is expected and there is no row, a column does not
    resolve, there is no data row, or a data row lacks a key field) it
    changes no file outside the workspace at all: these errors come before
    the output is opened. *)
Theorem csvsort_touches_destination_only getsizeof a st :
  (∀ s, Outside s ≠ destination a →
        files (csvsort getsizeof a st).1 !! Outside s = files st !! Outside s) ∧
  ((¬ ∃ input cols, runs_through a st input cols) →
   ∀ s, files (csvsort getsizeof a st).1 !! Outside s = files st !! Outside s).
Proof.
  pose proof (csvsort_exact getsizeof a st) as H.
  pose proof (csvsort_result_ok_iff getsizeof a st) as Hok.
  destruct (csvsort_result getsizeof a (files st)) as [content|e|]; [| |done].
  - destruct H as (st' & -> & _ & Hfr). split; [done|].
    intros Hno. destruct Hno. by apply Hok.
  - destruct H as (st' & -> & Hfr). split; [|done]. intros s _. apply Hfr.
Qed.

(** The outcome of a run of the model, case by case. *)
Lemma csvsort_outcome_cases getsizeof a st :
  (csvsort getsizeof a st).2 =
  match files st !! Outside (input_filename a) with
  | None => Raise (FileNotFoundError (Outside (input_filename a)))
  | Some input =>
      if has_header a && bool_decide (input = []) then Raise StopIteration
      else
        match (parse_columns (columns a) (header_of a input)).2 with
        | Ok cols =>
            if bool_decide
                 (data_of a input ≠ [] ∧
                  Forall (λ r, is_ok (sort_key cols r) = true) (data_of a input))
            then Ok () else Raise IndexError
        | Raise e => Raise e
        | Diverge => Diverge
        end
  end.
Proof.
  pose proof (csvsort_exact getsizeof a st) as H.
  unfold csvsort_result in H.
  destruct (files st !! Outside (input_filename a)) as [input|].
  2:{ by destruct H as (st' & -> & _). }
  destruct (has_header a && bool_decide (input = [])).
  { by destruct H as (st' & -> & _). }
  pose proof (parse_columns_ok_int (columns a) (header_of a input)) as Hint.
  destruct (parse_columns (columns a) (header_of a input)).2 as [cols|e|].
  2:{ by destruct H as (st' & -> & _). }
  2:{ done. }
  specialize (Hint cols eq_refl).
  pose proof (pipeline_rows_is_ok getsizeof cols (max_size a) (data_of a input))
    as Hok.
  pose proof (pipeline_rows_int_raise getsizeof cols (max_size a)
                (data_of a input)) as Hraise.
  destruct (pipeline_rows getsizeof cols (max_size a) (data_of a input))
    as [out|e|]; [| |done].
  - destruct H as (st' & -> & _). rewrite bool_decide_eq_true_2; [done|].
    by apply Hok.
  - destruct H as (st' & -> & _). rewrite (Hraise e Hint eq_refl).
    rewrite bool_decide_eq_false_2; [done|].
    intros Hc. by apply Hok in Hc.
Qed.

(** X15.  The errors of [csvsort] by their cause, in the order in which
    the code meets them: [FileNotFoundError] when the input is missing,
    [StopIteration] when a header is expected and the file has no row, the
    exception of [parse_columns] when a column does not resolve, and
    [IndexError] when there is no data row or a data row lacks a key field.
    A run returns only if none of them applies. *)
Theorem csvsort_outcome getsizeof a st :
  (files st !! Outside (input_filename a) = None →
   (csvsort getsizeof a st).2
   = Raise (FileNotFoundError (Outside (input_filename a)))) ∧
  (∀ input, files st !! Outside (input_filename a) = Some input →
     (has_header a = true → input = [] →
      (csvsort getsizeof a st).2 = Raise StopIteration) ∧
     ((has_header a = true → input ≠ []) →
      (∀ e, (parse_columns (columns a) (header_of a input)).2 = Raise e →
            (csvsort getsizeof a st).2 = Raise e) ∧
      (∀ cols, (parse_columns (columns a) (header_of a input)).2 = Ok cols →
         data_of a input = [] ∨
         Exists (λ r, is_ok (sort_key cols r) = false) (data_of a input) →
         (csvsort getsizeof a st).2 = Raise IndexError))) ∧
  ((csvsort getsizeof a st).2 = Ok () →
   ∃ input cols, runs_through a st input cols).
Proof.
  rewrite (csvsort_outcome_cases getsizeof a st).
  split; [by intros ->|]. split.
  - intros input ->. split.
    + intros -> ->. done.
    + intros Hhd.
      assert (has_header a && bool_decide (input = []) = false) as ->.
      { destruct (has_header a); [|done]. simpl.
        apply bool_decide_eq_false_2. by apply Hhd. }
      split; [by intros e ->|].
      intros cols -> Hbad. rewrite bool_decide_eq_false_2; [done|].
      intros [Hne Hall]. destruct Hbad as [Hnil|Hex]; [done|].
      apply Exists_exists in Hex as (r & Hin & Hr).
      pose proof (proj1 (Forall_forall _ _) Hall r Hin) as Hr'.
      simpl in Hr'. congruence.
  - destruct (files st !! Outside (input_filename a)) as [input|] eqn:Hin;
      [|done].
    destruct (has_header a && bool_decide (input = [])) eqn:Hh; [done|].
    destruct (parse_columns (columns a) (header_of a input)).2
      as [cols|e|] eqn:Hp; [|done..].
    destruct (decide (data_of a input ≠ [] ∧
                Forall (λ r, is_ok (sort_key cols r) = true) (data_of a input)))
      as [Hd|Hd]; [|by rewrite bool_decide_eq_false_2].
    intros _. exists input, cols. split; [done|]. split.
    { intros Hhd ->. by rewrite Hhd in Hh. }
    split; [exact Hp|exact Hd].
Qed.

Lemma csvsort_one_chunk_ordered_witness :
  let a := Args "in.csv" [CName "v"] "out.csv" 100 true in
  let input := [["k"; "v"]; ["b"; "2"]; ["a"; "1"]; ["c"; "1"]] in
  let st := one_file "in.csv" input in
  (∀ r, (0 ≤ cpython_getsizeof r)%Z) ∧
  runs_through a st input [CInt 1%Z] ∧
  (total_size cpython_getsizeof (data_of a input) ≤ max_size a * 1024 * 1024)%Z ∧
  ∃ st' out,
    csvsort cpython_getsizeof a st = (st', Ok ()) ∧
    files st' !! destination a
      = Some (written_header (header_of a input) ++ out) ∧
    Sorted (rows_in_order [CInt 1%Z]) out ∧
    (∀ k, filter (λ r, sort_key [CInt 1%Z] r = Ok k) out
          = filter (λ r, sort_key [CInt 1%Z] r = Ok k) (data_of a input)) ∧
    (Sorted (rows_in_order [CInt 1%Z]) (data_of a input) →
     out = data_of a input).
Proof.
  intros a input st.
  assert (∀ r, (0 ≤ cpython_getsizeof r)%Z) as Hpos.
  { intros r. unfold cpython_getsizeof. lia. }
  assert (runs_through a st input [CInt 1%Z]) as Hrun.
  { split; [reflexivity|]. split; [discriminate|]. split; [reflexivity|].
    split; [discriminate|]. repeat constructor. }
  assert (total_size cpython_getsizeof (data_of a input)
          ≤ max_size a * 1024 * 1024)%Z as Hsz by (vm_compute; discriminate).
  split; [exact Hpos|]. split; [exact Hrun|]. split; [exact Hsz|].
  exact (csvsort_one_chunk_ordered cpython_getsizeof Hpos a st input
           [CInt 1%Z] Hrun Hsz).
Defined.

Lemma memorysort_ok_inv f cols st st1 :
  memorysort f cols st = (st1, Ok ()) →
  ∃ rows out, files st !! f = Some rows ∧ list_sort cols rows = Ok out ∧
              files st1 = <[f := out]> (files st).
Proof.
  intros H. destruct (files st !! f) as [rows|] eqn:Hf.
  2:{ unfold memorysort in H. erewrite bind_raise in H; [done|].
      unfold read_rows. by rewrite Hf. }
  destruct (list_sort cols rows) as [out|e|] eqn:Hs.
  - destruct (returns_memorysort f cols st rows out Hf Hs)
      as (st' & [] & Hm & Hst').
    exists rows, out. assert (st' = st1) as -> by congruence. done.
  - unfold memorysort in H.
    rewrite (bind_ok _ _ st st rows) in H; [|unfold read_rows; by rewrite Hf].
    erewrite bind_raise in H; [done|]. unfold lift. by rewrite Hs.
  - by destruct (list_sort_not_diverge cols rows).
Qed.

(** X17.  [memorysort] is idempotent: on a file it has sorted, a second
    call returns as well and leaves every file as it is. *)
Theorem memorysort_twice f cols st st1 :
  memorysort f cols st = (st1, Ok ()) →
  ∃ st2, memorysort f cols st1 = (st2, Ok ()) ∧ files st2 = files st1.
Proof.
  intros (rows & out & Hf & Hs & Hst1)%memorysort_ok_inv.
  assert (files st1 !! f = Some out) as Hf1.
  { rewrite Hst1. apply lookup_insert_eq. }
  assert (list_sort cols out = Ok out) as Hs1.
  { apply list_sort_sorted_id; [by eapply list_sort_sorted|].
    apply list_sort_ok. rewrite (list_sort_perm _ _ _ Hs).
    apply list_sort_ok. by rewrite Hs. }
  destruct (returns_memorysort f cols st1 out out Hf1 Hs1)
    as (st2 & [] & Hm & Hst2).
  exists st2. split; [done|]. rewrite Hst2. by apply insert_id.
Qed.

Lemma memorysort_twice_witness :
  let st := State {[ Split 0 := [["b"; "2"]; ["a"; "3"]; ["a"; "1"]] ]} true [] in
  let st1 := (memorysort (Split 0) [CInt 0%Z] st).1 in
  memorysort (Split 0) [CInt 0%Z] st = (st1, Ok ()) ∧
  ∃ st2, memorysort (Split 0) [CInt 0%Z] st1 = (st2, Ok ()) ∧
         files st2 = files st1.
Proof.
  intros st st1.
  assert (memorysort (Split 0) [CInt 0%Z] st = (st1, Ok ())) as H
    by (vm_compute; reflexivity).
  split; [exact H|].
  exact (memorysort_twice (Split 0) [CInt 0%Z] st st1 H).
Defined.

Lemma row_order_transitive : Transitive row_order.
Proof. intros a b c. apply row_le_trans. Qed.

Lemma row_order_antisymmetric : AntiSymm (=) row_order.
Proof. intros a b. apply row_le_antisym. Qed.

Lemma Sorted_weaken_Forall {A} (P : A → Prop) (R R' : A → A → Prop) l :
  Forall P l → (∀ a b, P a → P b → R a b → R' a b) →
  Sorted R l → Sorted R' l.
Proof.
  intros HP HR Hs. induction Hs as [|x l Hs IH Hhd]; [constructor|].
  apply Forall_cons in HP as [Hx HP]. constructor; [by apply IH|].
  destruct Hhd as [|y l Hxy]; constructor.
  apply Forall_cons in HP as [Hy _]. by apply HR.
Qed.

(** X18.  When the key is the whole row (the columns are [0 .. k-1] and
    every data row has [k] fields), the output of every run that returns is
    the one arrangement of the data rows in ascending order: it does not
    depend on the chunk size. *)
Theorem csvsort_whole_row_key getsizeof a st input k st' :
  files st !! Outside (input_filename a) = Some input →
  (parse_columns (columns a) (header_of a input)).2 = Ok (leading_columns k) →
  Forall (λ r, length r = k) (data_of a input) →
  csvsort getsizeof a st = (st', Ok ()) →
  ∃ out,
    files st' !! destination a
      = Some (written_header (header_of a input) ++ out) ∧
    out ≡ₚ data_of a input ∧
    Sorted row_order out ∧
    ∀ l, l ≡ₚ data_of a input → Sorted row_order l → l = out.
Proof.
  intros Hin Hp Hlen Hret.
  destruct (csvsort_ok_rows getsizeof a st input _ st' Hin Hp Hret)
    as (out & Hpipe & Hout).
  pose proof (pipeline_rows_perm _ _ _ _ _ Hpipe) as Hperm.
  destruct (pipeline_rows_leading_sorted _ _ _ _ _ Hpipe) as [Hs _].
  assert (Sorted row_order out) as Hsorted.
  { eapply (Sorted_weaken_Forall (λ r, length r = k)); [|  |exact Hs].
    - by rewrite Hperm.
    - intros x y Hx Hy (kx & ky & Hkx & Hky & Hle).
      rewrite sort_key_leading, decide_True in Hkx by lia.
      rewrite sort_key_leading, decide_True in Hky by lia.
      rewrite take_ge in Hkx by lia. rewrite take_ge in Hky by lia.
      unfold row_order. congruence. }
  exists out. split; [done|]. split; [done|]. split; [done|].
  intros l Hl Hsl.
  apply (@Sorted_unique _ row_order row_order_transitive
           row_order_antisymmetric); [done..|].
  by rewrite Hl, Hperm.
Qed.

Lemma csvsort_whole_row_key_witness :
  let a := Args "in.csv" [CInt 0%Z; CInt 1%Z] "out.csv" 0 true in
  let input := [["k"; "v"]; ["b"; "2"]; ["a"; "3"]; ["a"; "1"]] in
  let st := one_file "in.csv" input in
  let st' := (csvsort cpython_getsizeof a st).1 in
  files st !! Outside (input_filename a) = Some input ∧
  (parse_columns (columns a) (header_of a input)).2 = Ok (leading_columns 2) ∧
  Forall (λ r, length r = 2%nat) (data_of a input) ∧
  csvsort cpython_getsizeof a st = (st', Ok ()) ∧
  ∃ out,
    files st' !! destination a
      = Some (written_header (header_of a input) ++ out) ∧
    out ≡ₚ data_of a input ∧
    Sorted row_order out ∧
    ∀ l, l ≡ₚ data_of a input → Sorted row_order l → l = out.
Proof.
  intros a input st st'.
  assert (files st !! Outside (input_filename a) = Some input) as H1
    by reflexivity.
  assert ((parse_columns (columns a) (header_of a input)).2
          = Ok (leading_columns 2)) as H2 by reflexivity.
  assert (Forall (λ r, length r = 2%nat) (data_of a input)) as H3
    by (repeat constructor).
  assert (csvsort cpython_getsizeof a st = (st', Ok ())) as H4
    by (vm_compute; reflexivity).
  split; [exact H1|]. split; [exact H2|]. split; [exact H3|].
  split; [exact H4|].
  exact (csvsort_whole_row_key cpython_getsizeof a st input 2 st'
           H1 H2 H3 H4).
Defined.

Lemma bind_returns_diverge {A B} (m : M A) (k : A → M B) st Q :
  returns m st Q →
  (∀ a st', Q a st' → (k a st').2 = Diverge) →
  (bind m k st).2 = Diverge.
Proof.
  intros (st' & a & Hm & HQ) Hk. unfold bind. rewrite Hm. by apply Hk.
Qed.

Lemma mergesort_loop_no_progress cols nway :
  (nway ≤ 1)%nat →
  ∀ fuel merge_n names cs st,
    (2 ≤ length names)%nat →
    NoDup names →
    (∀ j, (merge_n ≤ j)%nat → Merge j ∉ names) →
    stored (files st) names cs →
    (mergesort_loop fuel cols nway merge_n names st).2 = Diverge.
Proof.
  intros Hn. induction fuel as [|fuel IH];
    intros merge_n names cs st Hlen Hnd Hfresh Hs;
    rewrite mergesort_loop_unfold;
    rewrite (proj2 (Nat.ltb_lt 1 (length names))) by lia; [done|].
  assert (Merge merge_n ∉ names) as Hm by by apply Hfresh.
  eapply bind_returns_diverge; [apply returns_open_w|].
  intros ? st1 Hst1. simpl in Hst1.
  assert (stored (files st1) names cs) as Hs1.
  { rewrite Hst1. by apply stored_insert_fresh. }
  eapply bind_returns_diverge;
    [apply (returns_map_m_read_rows _ (take nway cs)); by apply Forall2_take|].
  intros ? ? [-> ->].
  eapply bind_returns_diverge; [apply (returns_writerows _ _ _ [])|].
  { rewrite Hst1. apply lookup_insert_eq. }
  intros ? st2 Hst2. simpl in Hst2. rewrite Hst1, insert_insert_eq in Hst2.
  assert (stored (files st2) names cs) as Hs2.
  { rewrite Hst2. by apply stored_insert_fresh. }
  pose proof Hnd as Hnd0.
  rewrite <- (take_drop nway names) in Hnd.
  apply NoDup_app in Hnd as (Hnd1 & Hdisj & Hnd2).
  eapply bind_returns_diverge;
    [apply (returns_for_each_os_remove _ (take nway cs));
      [done|by apply Forall2_take]|].
  intros ? st3 Hst3. simpl in Hst3.
  assert (Merge merge_n ∉ drop nway names) as Hm2.
  { intros H. apply Hm. by apply (subseteq_drop nway names). }
  apply (IH (S merge_n) _ (drop nway cs ++ [heapq_merge (take nway cs)])).
  - rewrite length_app, length_drop. simpl. lia.
  - apply NoDup_app. split; [done|]. split; [|apply NoDup_singleton].
    intros g Hg ->%list_elem_of_singleton. done.
  - intros j Hj [Hg|Hg%list_elem_of_singleton]%elem_of_app.
    + apply (Hfresh j); [lia|]. by apply (subseteq_drop nway names).
    + injection Hg as ->. lia.
  - apply Forall2_app.
    + eapply stored_ext; [|by apply Forall2_drop].
      intros g Hg. rewrite Hst3; [done|]. intros Hg'. by apply (Hdisj g).
    + repeat constructor. rewrite Hst3.
      * rewrite Hst2. apply lookup_insert_eq.
      * intros H. apply Hm. by apply (subseteq_take nway names).
Qed.

(** X19.  With a fan-in [nway] of 0 or 1 and two or more files to merge, a
    pass of [mergesort] does not shorten the list of files: however many
    passes the loop is given, it has not returned. *)
Theorem mergesort_fan_in_below_two names cs cols nway st :
  (nway ≤ 1)%nat →
  (2 ≤ length names)%nat →
  NoDup names →
  (∀ j, Merge j ∉ names) →
  stored (files st) names cs →
  ∀ fuel, (mergesort_loop fuel cols nway 0 names st).2 = Diverge.
Proof.
  intros Hn Hlen Hnd Hfresh Hs fuel.
  apply (mergesort_loop_no_progress cols nway Hn fuel 0 names cs st);
    [done|done| |done].
  intros j _. apply Hfresh.
Qed.

Lemma mergesort_fan_in_below_two_witness :
  let names := [Split 0; Split 1] in
  let cs := [[["b"]]; [["a"]]] in
  let st := State {[ Split 0 := [["b"]]; Split 1 := [["a"]] ]} true [] in
  (1 ≤ 1)%nat ∧ (2 ≤ length names)%nat ∧ NoDup names ∧
  (∀ j, Merge j ∉ names) ∧ stored (files st) names cs ∧
  ∀ fuel, (mergesort_loop fuel [CInt 0%Z] 1 0 names st).2 = Diverge.
Proof.
  intros names cs st.
  assert (1 ≤ 1)%nat as H1 by lia.
  assert (2 ≤ length names)%nat as H2 by (simpl; lia).
  assert (NoDup names) as H3.
  { apply NoDup_cons. split; [|apply NoDup_singleton].
    intros H%list_elem_of_singleton. discriminate H. }
  assert (∀ j, Merge j ∉ names) as H4.
  { intros j H. apply elem_of_cons in H as [H|H]; [discriminate H|].
    apply list_elem_of_singleton in H. discriminate H. }
  assert (stored (files st) names cs) as H5.
  { repeat constructor. }
  split; [exact H1|]. split; [exact H2|]. split; [exact H3|].
  split; [exact H4|]. split; [exact H5|].
  exact (mergesort_fan_in_below_two names cs [CInt 0%Z] 1 st H1 H2 H3 H4 H5).
Defined.
